(** * Minesweeper knowledge base: a shallow embedding of [minesweeper.py]

    The development models the classes [Minesweeper] (neighbour counting
    only), [Sentence] and [MinesweeperAI].  Python sets of cells are
    [gset]s, the knowledge list is a [list] of sentences addressed by
    index (the Python objects are shared between the list, the loop
    variable and [new_sentence], so every mutation is an update of the
    list), and Python integers are [Z]. *)

From Stdlib Require Import ZArith Lia.
From stdpp Require Import gmap fin_sets list.

Open Scope Z_scope.
#[local] Set Warnings "-clear-no-such-hyp".

(** ** Cells and iteration helpers *)

Abbreviation cell := (Z * Z)%type.

(** [range(n)] for a Python integer [n]. *)
Definition range (n : Z) : list Z :=
  Z.of_nat <$> seq 0 (Z.to_nat n).

(** [range(i - 1, i + 2)]. *)
Definition range3 (i : Z) : list Z := [i - 1; i; i + 1].

(** The nested loops [for row in range(i-1, i+2): for col in range(j-1, j+2)]. *)
Definition around (c : cell) : list cell :=
  r ← range3 c.1; k ← range3 c.2; [(r, k)].

Definition in_bounds (height width : Z) (c : cell) : bool :=
  bool_decide (0 ≤ c.1 ∧ c.1 < height ∧ 0 ≤ c.2 ∧ c.2 < width).

(** ** class Minesweeper (the part an observation depends on) *)

Module Minesweeper.

(** The board is read through [board[i][j]]; it is taken as a function. *)
Record t := mk {
  height : Z;
  width : Z;
  board : cell → bool
}.

Definition is_mine (g : t) (c : cell) : bool := board g c.

Definition nearby_mines_step (g : t) (c : cell) (n : Z) (ij : cell) : Z :=
  if decide (ij = c) then n
  else if in_bounds (height g) (width g) ij
       then (if board g ij then n + 1 else n)
       else n.

Definition nearby_mines (g : t) (c : cell) : Z :=
  foldl (nearby_mines_step g c) 0 (around c).

End Minesweeper.

(** ** class Sentence *)

Record Sentence := mkSentence {
  cells : gset cell;
  count : Z
}.

#[global] Instance Sentence_eq_dec : EqDecision Sentence.
Proof. solve_decision. Defined.

(** Python truthiness of a value that is [None] or a set. *)
Definition truthy (o : option (gset cell)) : bool :=
  match o with
  | Some s => negb (bool_decide (s = ∅))
  | None => false
  end.

Module Sentence.

(** [Sentence(cells, count)] with [cells] a list: [set(cells)]. *)
Definition init (cs : list cell) (n : Z) : Sentence :=
  mkSentence (list_to_set cs) n.

(** [__eq__] *)
Definition eqb (a b : Sentence) : bool :=
  bool_decide (cells a = cells b) && bool_decide (count a = count b).

(** Methods are state transformers on the object: the result and the
    object after the call. *)
Definition known_mines (s : Sentence) : option (gset cell) * Sentence :=
  if decide (Z.of_nat (size (cells s)) = count s)
  then (Some (cells s), s)
  else (None, s).

Definition known_safes (s : Sentence) : option (gset cell) * Sentence :=
  if decide (count s = 0)
  then (Some (cells s), s)
  else (None, s).

(** One iteration of the loop of [mark_mine]; the accumulator is
    [(new_set, self.count)]. *)
Definition mark_mine_step (c : cell) (acc : gset cell * Z) (x : cell)
  : gset cell * Z :=
  if decide (x ≠ c) then ({[x]} ∪ acc.1, acc.2) else (acc.1, acc.2 - 1).

Definition mark_mine (c : cell) (s : Sentence) : Sentence :=
  let r := foldl (mark_mine_step c) (∅, count s) (elements (cells s)) in
  mkSentence r.1 r.2.

Definition mark_safe_step (c : cell) (acc : gset cell) (x : cell)
  : gset cell :=
  if decide (x ≠ c) then {[x]} ∪ acc else acc.

Definition mark_safe (c : cell) (s : Sentence) : Sentence :=
  mkSentence (foldl (mark_safe_step c) ∅ (elements (cells s))) (count s).

End Sentence.

(** ** class MinesweeperAI *)

Record AI := mkAI {
  height : Z;
  width : Z;
  moves_made : gset cell;
  mines : gset cell;
  safes : gset cell;
  knowledge : list Sentence
}.

Definition set_knowledge (k : list Sentence) (st : AI) : AI :=
  mkAI (height st) (width st) (moves_made st) (mines st) (safes st) k.

Module MinesweeperAI.

Definition init (h w : Z) : AI := mkAI h w ∅ ∅ ∅ [].

Definition mark_mine (c : cell) (st : AI) : AI :=
  mkAI (height st) (width st) (moves_made st)
       ({[c]} ∪ mines st) (safes st)
       (Sentence.mark_mine c <$> knowledge st).

Definition mark_safe (c : cell) (st : AI) : AI :=
  mkAI (height st) (width st) (moves_made st)
       (mines st) ({[c]} ∪ safes st)
       (Sentence.mark_safe c <$> knowledge st).

(** [for mine in d: self.mark_mine(mine)], where [d] is a set that the
    loop body does not mutate (the sentences rebind [self.cells]). *)
Definition mark_mines (d : gset cell) (st : AI) : AI :=
  foldl (λ s c, mark_mine c s) st (elements d).

Definition mark_safes (d : gset cell) (st : AI) : AI :=
  foldl (λ s c, mark_safe c s) st (elements d).

(** The neighbour loop of [add_knowledge]; the accumulator is
    [(cells, count)]. *)
Definition neighbour_step (st : AI) (c : cell) (acc : list cell * Z)
  (rc : cell) : list cell * Z :=
  if in_bounds (height st) (width st) rc then
    if decide (rc = c) then acc
    else
      let n := if decide (rc ∈ mines st) then acc.2 - 1 else acc.2 in
      if decide ((rc ∉ mines st) ∧ (rc ∉ safes st))
      then (acc.1 ++ [rc], n)
      else (acc.1, n)
  else acc.

Definition new_sentence_of (st : AI) (c : cell) (n : Z) : Sentence :=
  let r := foldl (neighbour_step st c) ([], n) (around c) in
  Sentence.init r.1 r.2.

(** Lines 199-216: record the move, mark the cell safe, append the new
    sentence. *)
Definition record_observation (c : cell) (n : Z) (st : AI) : AI :=
  let st1 := mkAI (height st) (width st) ({[c]} ∪ moves_made st)
                  (mines st) (safes st) (knowledge st) in
  let st2 := mark_safe c st1 in
  set_knowledge (knowledge st2 ++ [new_sentence_of st2 c n]) st2.

(** The subset rule applied to [small ⊆ big]: the three-way branch of
    lines 225-237 (and 240-252). *)
Definition subset_rule (small big : Sentence) (acc : AI * list Sentence)
  : AI * list Sentence :=
  let diff := cells big ∖ cells small in
  if decide (count small = count big) then
    (mark_safes diff acc.1, acc.2)
  else if decide (Z.of_nat (size diff) = count big - count small) then
    (mark_mines diff acc.1, acc.2)
  else
    (acc.1, acc.2 ++ [mkSentence diff (count big - count small)]).

(** One iteration of [for sentence in self.knowledge] (lines 220-252).
    [sentence] is the object at index [i]; [new_sentence] is the object
    that was appended last. *)
Definition compare_step (acc : AI * list Sentence) (i : nat)
  : AI * list Sentence :=
  match knowledge acc.1 !! i, last (knowledge acc.1) with
  | Some sentence, Some new_sentence =>
      if Sentence.eqb sentence new_sentence then acc
      else if decide (cells sentence ⊆ cells new_sentence) then
        subset_rule sentence new_sentence acc
      else if decide (cells new_sentence ⊆ cells sentence) then
        subset_rule new_sentence sentence acc
      else acc
  | _, _ => acc
  end.

Definition compare_all (st : AI) : AI * list Sentence :=
  foldl compare_step (st, []) (seq 0 (length (knowledge st))).

(** [sentence not in unique_knowledge] *)
Definition sentence_in (s : Sentence) (l : list Sentence) : bool :=
  existsb (Sentence.eqb s) l.

Definition remove_duplicates_step (unique : list Sentence) (s : Sentence)
  : list Sentence :=
  if sentence_in s unique then unique else unique ++ [s].

Definition remove_duplicates (st : AI) : AI :=
  set_knowledge (foldl remove_duplicates_step [] (knowledge st)) st.

(** One iteration of the loop of [add_known_safes_and_mines].  The
    accumulator holds the state and the indices of the objects appended
    to [final_knowledge]; those objects stay in [self.knowledge] and keep
    being mutated by later marks. *)
Definition harvest_step (acc : AI * list nat) (i : nat) : AI * list nat :=
  match knowledge acc.1 !! i with
  | Some s =>
      let safes := (Sentence.known_safes s).1 in
      let mines := (Sentence.known_mines s).1 in
      let st1 := if truthy safes
                 then mark_safes (default ∅ safes) acc.1 else acc.1 in
      let st2 := if truthy mines
                 then mark_mines (default ∅ mines) st1 else st1 in
      (st2, if negb (truthy safes || truthy mines)
            then acc.2 ++ [i] else acc.2)
  | None => acc
  end.

Definition add_known_safes_and_mines (st : AI) : AI :=
  let r := foldl harvest_step (st, []) (seq 0 (length (knowledge st))) in
  set_knowledge (omap (λ i, knowledge r.1 !! i) r.2) r.1.

Definition extend_knowledge (r : AI * list Sentence) : AI :=
  set_knowledge (knowledge r.1 ++ r.2) r.1.

Definition add_knowledge (c : cell) (n : Z) (st : AI) : AI :=
  let st1 := record_observation c n st in
  let st2 := extend_knowledge (compare_all st1) in
  add_known_safes_and_mines (remove_duplicates st2).

(** [set.pop()] on a local set: an arbitrary element is removed and
    returned.  The element is selected by [choice] in the iteration order
    of the set. *)
Definition set_pop (choice : nat) (s : gset cell)
  : option cell * gset cell :=
  match elements s !! (choice `mod` length (elements s))%nat with
  | Some x => (Some x, s ∖ {[x]})
  | None => (None, s)
  end.

Definition make_safe_move (choice : nat) (st : AI) : option cell * AI :=
  let safeCells := safes st ∖ moves_made st in
  if bool_decide (safeCells = ∅) then (None, st)
  else ((set_pop choice safeCells).1, st).

(** [list.remove(x)]: drop the first occurrence. *)
Fixpoint list_remove (x : cell) (l : list cell) : list cell :=
  match l with
  | [] => []
  | y :: l' => if decide (y = x) then l' else y :: list_remove x l'
  end.

Definition possible_moves (st : AI) : list cell :=
  i ← range (height st); j ← range (width st); [(i, j)].

(** The [while] loop of [make_random_move]. [rnd k] is the raw value
    drawn at iteration [k]; [random.choice] indexes the list with it.
    The outer [None] means that the fuel ran out. *)
Fixpoint random_loop (fuel : nat) (rnd : nat → nat) (k : nat) (st : AI)
  (moves : list cell) : option (option cell) :=
  match moves with
  | [] => Some None
  | m0 :: _ =>
      match fuel with
      | O => None
      | S fuel' =>
          let random_move :=
            default m0 (moves !! (rnd k `mod` length moves)%nat) in
          let moves' := list_remove random_move moves in
          if decide ((random_move ∉ moves_made st) ∧ (random_move ∉ mines st))
          then Some (Some random_move)
          else random_loop fuel' rnd (S k) st moves'
      end
  end.

Definition make_random_move (rnd : nat → nat) (st : AI)
  : option (option cell) :=
  let moves := possible_moves st in
  random_loop (length moves) rnd 0 st moves.

End MinesweeperAI.

(** ** Counting the mines of a set of cells under a mine layout *)

(** [mines_in b X]: how many cells of [X] are mines in the layout [b]. *)
Definition mines_in (b : cell → bool) (X : gset cell) : Z :=
  Z.of_nat (size (filter (λ x, b x = true) X)).

(** A sentence is true in a layout when its count is the number of its
    cells that are mines. *)
Definition sentence_true (b : cell → bool) (s : Sentence) : Prop :=
  count s = mines_in b (cells s).

(** The effect of marking every cell of [d] on one sentence. *)
Definition strip_safes (d : gset cell) (s : Sentence) : Sentence :=
  mkSentence (cells s ∖ d) (count s).

Definition strip_mines (d : gset cell) (s : Sentence) : Sentence :=
  mkSentence (cells s ∖ d) (count s - Z.of_nat (size (cells s ∩ d))).

(** The knowledge of the engine agrees with a game: same dimensions,
    known safes are not mines, known mines are mines, every sentence is
    true in the layout of the board. *)
Definition sound (g : Minesweeper.t) (st : AI) : Prop :=
  height st = Minesweeper.height g
  ∧ width st = Minesweeper.width g
  ∧ (∀ c, c ∈ safes st → Minesweeper.board g c = false)
  ∧ (∀ c, c ∈ mines st → Minesweeper.board g c = true)
  ∧ Forall (sentence_true (Minesweeper.board g)) (knowledge st).

(** Both sets of conclusions only grow from [st] to [st']. *)
Definition grows (st st' : AI) : Prop :=
  safes st ⊆ safes st' ∧ mines st ⊆ mines st'.



(** The sentences of the two subset-inference scenarios. *)
Definition safe_case_A : Sentence := mkSentence {[ (0,0); (0,1) ]} 1.
Definition safe_case_B : Sentence := mkSentence {[ (0,0); (0,1); (0,2) ]} 1.


(** A 3x3 engine that holds the sentence [a] and already knows that the
    cells of [known_safe] are safe. *)
Definition engine_with (a : Sentence) (known_safe : gset cell) : AI :=
  mkAI 3 3 ∅ ∅ known_safe [a].

(** Some stored sentence has no cell. *)
Definition holds_empty (k : list Sentence) : Prop :=
  ∃ s, s ∈ k ∧ cells s = ∅.

(** The calls a driver makes under the documented preconditions: a cell
    is observed only if it is not a mine, with the count the board
    reports for it; a cell is flagged only if it is a mine. *)
Inductive call (g : Minesweeper.t) : AI → AI → Prop :=
  | call_observe st c :
      Minesweeper.is_mine g c = false →
      call g st (MinesweeperAI.add_knowledge c (Minesweeper.nearby_mines g c) st)
  | call_mark_mine st c :
      Minesweeper.is_mine g c = true →
      call g st (MinesweeperAI.mark_mine c st).

Definition reachable (g : Minesweeper.t) (st : AI) : Prop :=
  rtc (call g)
      (MinesweeperAI.init (Minesweeper.height g) (Minesweeper.width g)) st.

(** ** The saturation pass of the specification

    This definition follows the words of the specification (section 4.3,
    steps 4 and 5), not the source: one pass scans all ordered pairs of
    distinct stored sentences, applies the subset rule to every pair
    [(A, B)] with [A.cells ⊆ B.cells], adds the derived sentences that are
    not yet present, and then harvests.  It is built from the rule and the
    harvest of the source. *)
Definition spec_pair_step (acc : AI * list Sentence) (ij : nat * nat)
  : AI * list Sentence :=
  match knowledge acc.1 !! ij.1, knowledge acc.1 !! ij.2 with
  | Some A, Some B =>
      if bool_decide (ij.1 ≠ ij.2) && negb (Sentence.eqb A B)
         && bool_decide (cells A ⊆ cells B)
      then MinesweeperAI.subset_rule A B acc
      else acc
  | _, _ => acc
  end.

Definition spec_saturation_pass (st : AI) : AI :=
  let n := length (knowledge st) in
  let pairs := i ← seq 0 n; j ← seq 0 n; [(i, j)] in
  MinesweeperAI.add_known_safes_and_mines
    (MinesweeperAI.remove_duplicates
       (MinesweeperAI.extend_knowledge
          (foldl spec_pair_step (st, []) pairs))).

(** ** Concrete games used to evaluate the engine *)

(** A game with the given dimensions and mines. *)
Definition game (h w : Z) (layout : gset cell) : Minesweeper.t :=
  Minesweeper.mk h w (λ c, bool_decide (c ∈ layout)).

(** The driver observes the cells of [cs] in order, each with the count
    the board reports. *)
Definition play (g : Minesweeper.t) (cs : list cell) : AI :=
  foldl (λ st c,
           MinesweeperAI.add_knowledge c (Minesweeper.nearby_mines g c) st)
        (MinesweeperAI.init (Minesweeper.height g) (Minesweeper.width g))
        cs.

(** One row of five cells, mines at [(0,2)] and [(0,4)]. *)
Definition row_game : Minesweeper.t := game 1 5 {[ (0,2); (0,4) ]}.

(** Two rows of four cells, one mine at [(1,2)]. *)
Definition two_row_game : Minesweeper.t := game 2 4 {[ (1,2) ]}.

(** Two rows of two cells, no mine. *)
Definition empty_game : Minesweeper.t := game 2 2 ∅.

(** ** [Minesweeper.__init__], with the board as the list of rows it is

    The constructor draws from [random.randrange]; the draws are an
    arbitrary stream [rnd].  A call returns, raises, or is still running
    when the fuel is spent. *)

Inductive outcome (A : Type) : Type :=
  | Returned (a : A)
  | Raised
  | OutOfFuel.
Arguments Returned {A} a.
Arguments Raised {A}.
Arguments OutOfFuel {A}.

Record Game := mkGame {
  game_height : Z;
  game_width : Z;
  game_mines : gset cell;
  game_board : list (list bool);
  game_mines_found : gset cell
}.

Module Game.

(** [row = []; for j in range(width): row.append(False)] *)
Definition make_row (w : Z) : list bool :=
  foldl (λ row _, row ++ [false]) [] (range w).

(** [for i in range(height): ...; self.board.append(row)] *)
Definition make_board (h w : Z) : list (list bool) :=
  foldl (λ board _, board ++ [make_row w]) [] (range h).

(** [random.randrange(n)]: a [ValueError] unless [n] is positive. *)
Definition randrange (n : Z) (r : nat) : option nat :=
  if decide (0 < n) then Some (r `mod` Z.to_nat n)%nat else None.

(** [self.board[i][j]] for indices that are not negative. *)
Definition board_get (board : list (list bool)) (i j : nat) : option bool :=
  board !! i ≫= (.!! j).

(** [self.board[i][j] = True]: the row object is updated in place; the
    rows are distinct objects. *)
Definition board_set (board : list (list bool)) (i j : nat)
  : list (list bool) :=
  match board !! i with
  | Some row => <[i := <[j := true]> row]> board
  | None => board
  end.

(** The loop [while len(self.mines) != mines]; [k] counts the draws. *)
Fixpoint place_mines (fuel : nat) (rnd : nat → nat) (k : nat)
  (h w target : Z) (mines : gset cell) (board : list (list bool))
  : outcome (gset cell * list (list bool)) :=
  if decide (Z.of_nat (size mines) = target) then Returned (mines, board)
  else
    match fuel with
    | O => OutOfFuel
    | S fuel' =>
        match randrange h (rnd k), randrange w (rnd (S k)) with
        | Some i, Some j =>
            match board_get board i j with
            | Some false =>
                place_mines fuel' rnd (S (S k)) h w target
                  ({[ (Z.of_nat i, Z.of_nat j) ]} ∪ mines)
                  (board_set board i j)
            | Some true =>
                place_mines fuel' rnd (S (S k)) h w target mines board
            | None => Raised
            end
        | _, _ => Raised
        end
    end.

Definition init (fuel : nat) (rnd : nat → nat) (h w target : Z)
  : outcome Game :=
  match place_mines fuel rnd 0 h w target ∅ (make_board h w) with
  | Returned r => Returned (mkGame h w r.1 r.2 ∅)
  | Raised => Raised
  | OutOfFuel => OutOfFuel
  end.

(** Python indexing [l[i]]: a negative index counts from the end, an
    index out of range raises [IndexError] ([None]). *)
Definition py_get {A} (l : list A) (i : Z) : option A :=
  if decide (0 ≤ i) then l !! Z.to_nat i
  else if decide (- Z.of_nat (length l) ≤ i)
       then l !! Z.to_nat (Z.of_nat (length l) + i)
       else None.

(** [is_mine]: [i, j = cell; return self.board[i][j]]. *)
Definition is_mine (g : Game) (c : cell) : option bool :=
  py_get (game_board g) c.1 ≫= λ row, py_get row c.2.

(** [won]: [self.mines_found == self.mines]. *)
Definition won (g : Game) : bool :=
  bool_decide (game_mines_found g = game_mines g).

(** [nearby_mines] reading the list of rows; [None] is an [IndexError]. *)
Definition nearby_mines_step (g : Game) (c : cell) (acc : option Z)
  (ij : cell) : option Z :=
  n ← acc;
  if decide (ij = c) then Some n
  else if in_bounds (game_height g) (game_width g) ij
       then v ← is_mine g ij; Some (if v : bool then n + 1 else n)
       else Some n.

Definition nearby_mines (g : Game) (c : cell) : option Z :=
  foldl (nearby_mines_step g c) (Some 0) (around c).

(** The game as the engine proofs see it: the board as a function. *)
Definition view (g : Game) : Minesweeper.t :=
  Minesweeper.mk (game_height g) (game_width g)
                 (λ c, bool_decide (c ∈ game_mines g)).

End Game.

(** The board of a game, its rows and its set of mines agree. *)
Definition board_agrees (H W : nat) (mines : gset cell)
  (board : list (list bool)) : Prop :=
  length board = H
  ∧ (∀ i row, board !! i = Some row → length row = W)
  ∧ (∀ i j row, board !! i = Some row →
        (row !! j = Some true ↔ (Z.of_nat i, Z.of_nat j) ∈ mines))
  ∧ (∀ c, c ∈ mines →
        ∃ i j, c = (Z.of_nat i, Z.of_nat j) ∧ (i < H)%nat ∧ (j < W)%nat).

(** One row of two cells with a mine at [(0,1)], and the game that the
    constructor builds on that row when both draws are 0. *)
Definition pair_game : Minesweeper.t := game 1 2 {[ (0,1) ]}.

Definition built_game : Game :=
  mkGame 1 2 {[ (0,0) ]} [[true; false]] ∅.

(** ** Notions used by the properties of the individual functions *)

(** The in-bounds cells around [c], without [c] itself: the cells both
    neighbour loops (lines 65-75 and 206-214) act on. *)
Definition neighbours (h w : Z) (c : cell) : gset cell :=
  list_to_set (filter (λ x, in_bounds h w x = true ∧ x ≠ c) (around c)).

(** A sentence from which the harvest draws no conclusion: neither
    [known_safes()] nor [known_mines()] is a non-empty set. *)
Definition settled (s : Sentence) : Prop :=
  truthy (Sentence.known_safes s).1 = false
  ∧ truthy (Sentence.known_mines s).1 = false.

(** The fields that no step of [add_knowledge] after the first lines
    touches. *)
Definition same_frame (st st' : AI) : Prop :=
  height st' = height st ∧ width st' = width st
  ∧ moves_made st' = moves_made st.

(** [k'] is [k] with, possibly, cells removed from its sentences. *)
Definition stripped (k k' : list Sentence) : Prop :=
  Forall2 (λ s s', cells s' ⊆ cells s) k k'.

(** What a step of either loop preserves. *)
Definition step_ok (st st' : AI) : Prop :=
  same_frame st st' ∧ stripped (knowledge st) (knowledge st').

(** The cell [x] is settled as safe, or still waits in the sentence
    stored at index [j], whose count is 0. *)
Definition zero_tracked (x : cell) (j : nat) (st : AI) : Prop :=
  x ∈ safes st
  ∨ ∃ s, knowledge st !! j = Some s ∧ x ∈ cells s ∧ count s = 0.

(** The cell [x] is settled as a mine, or still waits in the sentence
    stored at index [j], all of whose cells are counted as mines. *)
Definition full_tracked (x : cell) (j : nat) (st : AI) : Prop :=
  x ∈ mines st
  ∨ ∃ s, knowledge st !! j = Some s ∧ x ∈ cells s
         ∧ count s = Z.of_nat (size (cells s)).

(** Every cell of every sentence of [k] satisfies [Q]. *)
Definition all_cells (Q : cell → Prop) (k : list Sentence) : Prop :=
  ∀ s x, s ∈ k → x ∈ cells s → Q x.

(** A sentence from which neither [known_safes] nor [known_mines] can
    conclude anything, not even the empty set. *)
Definition undecided (s : Sentence) : Prop :=
  count s ≠ 0 ∧ Z.of_nat (size (cells s)) ≠ count s.

(** A call of [add_knowledge] or [mark_mine] with any arguments
    whatsoever: no precondition is assumed. *)
Inductive any_call : AI → AI → Prop :=
  | any_add_knowledge st c n :
      any_call st (MinesweeperAI.add_knowledge c n st)
  | any_mark_mine st c : any_call st (MinesweeperAI.mark_mine c st).

(** The engine has the dimensions [h] x [w], every cell of a stored
    sentence lies on that board, and so does every known safe cell that has
    not been played. *)
Definition board_inv (h w : Z) (st : AI) : Prop :=
  height st = h ∧ width st = w
  ∧ (∀ s x, s ∈ knowledge st → x ∈ cells s → in_bounds h w x = true)
  ∧ (∀ x, x ∈ safes st → x ∈ moves_made st ∨ in_bounds h w x = true).

Definition on_board (h w : Z) (X : gset cell) : Prop :=
  ∀ x, x ∈ X → in_bounds h w x = true.

(** Every cell of every stored sentence lies on the board. *)
Definition cells_on_board (st : AI) : Prop :=
  ∀ s x, s ∈ knowledge st → x ∈ cells s →
         in_bounds (height st) (width st) x = true.

#[global] Arguments around : simpl never.
#[global] Arguments Sentence.mark_mine : simpl never.
#[global] Arguments Sentence.mark_safe : simpl never.

(** * Facts about [Sentence] *)

Section sentence_facts.
Implicit Types (c x : cell) (s : Sentence) (X Y : gset cell).

Lemma eqb_eq (a b : Sentence) : Sentence.eqb a b = true ↔ a = b.
Proof.
  unfold Sentence.eqb. rewrite andb_true_iff, !bool_decide_eq_true.
  split.
  - destruct a, b; simpl; intros [-> ->]; reflexivity.
  - intros ->; done.
Qed.


Lemma mark_mine_loop c (l : list cell) (acc : gset cell) (n : Z) :
  NoDup l →
  foldl (Sentence.mark_mine_step c) (acc, n) l
  = (list_to_set (filter (λ x, x ≠ c) l) ∪ acc,
     if decide (c ∈ l) then n - 1 else n).
Proof.
  intros Hnd. revert acc n.
  induction Hnd as [|x l Hx Hnd IH]; intros acc n; simpl.
  - f_equal. set_solver.
  - unfold Sentence.mark_mine_step at 2; simpl.
    destruct (decide (x ≠ c)) as [Hne|Heq].
    + rewrite IH, filter_cons_True by done.
      f_equal; [set_solver|].
      destruct (decide (c ∈ l)), (decide (c ∈ x :: l)); set_solver.
    + apply dec_stable in Heq; subst x.
      rewrite IH, filter_cons_False by (intros ?; done).
      f_equal.
      rewrite (decide_False (P := c ∈ l)) by done.
      rewrite decide_True by set_solver. done.
Qed.

Lemma mark_safe_loop c (l : list cell) (acc : gset cell) :
  foldl (Sentence.mark_safe_step c) acc l
  = list_to_set (filter (λ x, x ≠ c) l) ∪ acc.
Proof.
  revert acc. induction l as [|x l IH]; intros acc; simpl.
  - set_solver.
  - unfold Sentence.mark_safe_step at 2.
    destruct (decide (x ≠ c)).
    + rewrite IH, filter_cons_True by done. set_solver.
    + rewrite IH, filter_cons_False by done. done.
Qed.

Lemma filter_ne_elements c X :
  list_to_set (C := gset cell) (filter (λ x, x ≠ c) (elements X)) = X ∖ {[c]}.
Proof.
  apply set_eq; intros x.
  rewrite elem_of_list_to_set, list_elem_of_filter, elem_of_elements.
  set_solver.
Qed.

Lemma mark_mine_cells c s :
  cells (Sentence.mark_mine c s) = cells s ∖ {[c]}.
Proof.
  unfold Sentence.mark_mine.
  rewrite mark_mine_loop by apply NoDup_elements. simpl.
  rewrite filter_ne_elements. set_solver.
Qed.

Lemma mark_mine_count c s :
  count (Sentence.mark_mine c s)
  = if decide (c ∈ cells s) then count s - 1 else count s.
Proof.
  unfold Sentence.mark_mine.
  rewrite mark_mine_loop by apply NoDup_elements. simpl.
  destruct (decide (c ∈ elements (cells s))) as [H|H],
           (decide (c ∈ cells s)) as [H'|H'];
    rewrite elem_of_elements in H; done.
Qed.

Lemma mark_safe_cells c s :
  cells (Sentence.mark_safe c s) = cells s ∖ {[c]}.
Proof.
  unfold Sentence.mark_safe; simpl.
  rewrite mark_safe_loop, filter_ne_elements. set_solver.
Qed.

Lemma mark_safe_count c s : count (Sentence.mark_safe c s) = count s.
Proof. reflexivity. Qed.

Lemma sentence_ext s1 s2 :
  cells s1 = cells s2 → count s1 = count s2 → s1 = s2.
Proof. destruct s1, s2; simpl; intros -> ->; reflexivity. Qed.

End sentence_facts.

(** [C6] For every sentence, [known_mines] returns the set of all member
    cells exactly when [count == |cells|] and [None] otherwise,
    [known_safes] returns the set of all member cells exactly when
    [count == 0] and [None] otherwise, and the sentence after either call
    is the sentence before it. *)
Theorem known_mines_known_safes_spec (s : Sentence) :
  ((Sentence.known_mines s).1 = Some (cells s)
     ↔ count s = Z.of_nat (size (cells s)))
  ∧ ((Sentence.known_mines s).1 = None
     ↔ count s ≠ Z.of_nat (size (cells s)))
  ∧ ((Sentence.known_safes s).1 = Some (cells s) ↔ count s = 0)
  ∧ ((Sentence.known_safes s).1 = None ↔ count s ≠ 0)
  ∧ (Sentence.known_mines s).2 = s
  ∧ (Sentence.known_safes s).2 = s.
Proof.
  unfold Sentence.known_mines, Sentence.known_safes.
  destruct (decide (Z.of_nat (size (cells s)) = count s)) as [Hm|Hm],
           (decide (count s = 0)) as [Hz|Hz]; simpl;
    repeat split; intros; try done; try lia; congruence.
Qed.

(** [C7] For every sentence and every cell: [mark_mine] removes the cell
    and decrements [count] by exactly 1 if the cell is a member and leaves
    the sentence unchanged otherwise; [mark_safe] removes the cell and
    keeps [count] if the cell is a member and leaves the sentence
    unchanged otherwise.  Both are total functions. *)
Theorem sentence_mark_spec (c : cell) (s : Sentence) :
  Sentence.mark_mine c s
  = (if decide (c ∈ cells s)
     then mkSentence (cells s ∖ {[c]}) (count s - 1) else s)
  ∧ Sentence.mark_safe c s
  = (if decide (c ∈ cells s)
     then mkSentence (cells s ∖ {[c]}) (count s) else s).
Proof.
  split; apply sentence_ext.
  - rewrite mark_mine_cells. destruct (decide (c ∈ cells s)); simpl; set_solver.
  - rewrite mark_mine_count. destruct (decide (c ∈ cells s)); done.
  - rewrite mark_safe_cells. destruct (decide (c ∈ cells s)); simpl; set_solver.
  - rewrite mark_safe_count. destruct (decide (c ∈ cells s)); done.
Qed.

(** * Facts about [mines_in] *)

Section mines_in_facts.
Context (b : cell → bool).
Implicit Types (c x : cell) (X Y : gset cell).

Lemma mines_in_empty : mines_in b ∅ = 0.
Proof.
  unfold mines_in.
  replace (filter (λ x, b x = true) (∅ : gset cell)) with (∅ : gset cell)
    by set_solver.
  rewrite size_empty. done.
Qed.

Lemma mines_in_bounds X : 0 ≤ mines_in b X ≤ Z.of_nat (size X).
Proof.
  unfold mines_in. split; [lia|].
  apply inj_le, subseteq_size. set_solver.
Qed.

Lemma mines_in_union X Y :
  X ## Y → mines_in b (X ∪ Y) = mines_in b X + mines_in b Y.
Proof.
  intros Hd. unfold mines_in.
  replace (filter (λ x, b x = true) (X ∪ Y))
    with (filter (λ x, b x = true) X ∪ filter (λ x, b x = true) Y)
    by set_solver.
  rewrite size_union by set_solver. lia.
Qed.

Lemma mines_in_singleton x :
  mines_in b {[x]} = if b x then 1 else 0.
Proof.
  unfold mines_in. destruct (b x) eqn:Hx.
  - replace (filter (λ x, b x = true) ({[x]} : gset cell))
      with ({[x]} : gset cell) by set_solver.
    rewrite size_singleton. done.
  - replace (filter (λ x, b x = true) ({[x]} : gset cell))
      with (∅ : gset cell).
    + rewrite size_empty. done.
    + apply set_eq; intros y. rewrite elem_of_filter.
      split; [set_solver|]. intros [Hy ->%elem_of_singleton]. congruence.
Qed.

Lemma mines_in_difference X Y :
  X ⊆ Y → mines_in b (Y ∖ X) = mines_in b Y - mines_in b X.
Proof.
  intros Hsub.
  assert (Y = X ∪ Y ∖ X) as HY.
  { apply set_eq; intros x. destruct (decide (x ∈ X)); set_solver. }
  rewrite HY at 2. rewrite mines_in_union by set_solver. lia.
Qed.

Lemma mines_in_remove x X :
  mines_in b (X ∖ {[x]})
  = mines_in b X - (if decide (x ∈ X) then (if b x then 1 else 0) else 0).
Proof.
  destruct (decide (x ∈ X)) as [Hx|Hx].
  - rewrite mines_in_difference by set_solver.
    rewrite mines_in_singleton. done.
  - replace (X ∖ {[x]}) with X by set_solver. lia.
Qed.

Lemma mines_in_zero X x : mines_in b X = 0 → x ∈ X → b x = false.
Proof.
  unfold mines_in. intros H Hx.
  assert (filter (λ x, b x = true) X ≡ ∅) as He
    by (apply size_empty_iff; lia).
  destruct (b x) eqn:Hb; [|done].
  assert (x ∈ filter (λ x, b x = true) X) by (apply elem_of_filter; done).
  set_solver.
Qed.

Lemma mines_in_full X x :
  mines_in b X = Z.of_nat (size X) → x ∈ X → b x = true.
Proof.
  unfold mines_in. intros H Hx.
  assert (filter (λ x, b x = true) X ≡ X) as He.
  { apply set_subseteq_size_equiv; [set_solver|lia]. }
  rewrite <- He in Hx. apply elem_of_filter in Hx. tauto.
Qed.

Lemma sentence_true_bounds s :
  sentence_true b s → 0 ≤ count s ≤ Z.of_nat (size (cells s)).
Proof. unfold sentence_true. intros ->. apply mines_in_bounds. Qed.

Lemma sentence_true_mark_mine c s :
  b c = true → sentence_true b s → sentence_true b (Sentence.mark_mine c s).
Proof.
  unfold sentence_true. intros Hc Hs.
  rewrite mark_mine_cells, mark_mine_count, mines_in_remove, Hc, Hs.
  destruct (decide (c ∈ cells s)); lia.
Qed.

Lemma sentence_true_mark_safe c s :
  b c = false → sentence_true b s → sentence_true b (Sentence.mark_safe c s).
Proof.
  unfold sentence_true. intros Hc Hs.
  rewrite mark_safe_cells, mark_safe_count, mines_in_remove, Hc, Hs.
  destruct (decide (c ∈ cells s)); lia.
Qed.

End mines_in_facts.

(** [C8] Under the usage preconditions (the sentence is true in the mine
    layout, a cell marked as a mine is a mine, a cell marked safe is not)
    the invariant [0 <= count <= |cells|] holds after [mark_mine] and
    after [mark_safe], and the sentence stays true, so the invariant
    keeps holding after every further mutation. *)
Theorem sentence_count_invariant (b : cell → bool) (c : cell) (s : Sentence) :
  sentence_true b s →
  (b c = true →
     sentence_true b (Sentence.mark_mine c s)
     ∧ 0 ≤ count (Sentence.mark_mine c s)
         ≤ Z.of_nat (size (cells (Sentence.mark_mine c s))))
  ∧ (b c = false →
     sentence_true b (Sentence.mark_safe c s)
     ∧ 0 ≤ count (Sentence.mark_safe c s)
         ≤ Z.of_nat (size (cells (Sentence.mark_safe c s)))).
Proof.
  intros Hs. split; intros Hc.
  - pose proof (sentence_true_mark_mine b c s Hc Hs) as H.
    split; [done|]. by apply sentence_true_bounds in H.
  - pose proof (sentence_true_mark_safe b c s Hc Hs) as H.
    split; [done|]. by apply sentence_true_bounds in H.
Qed.

(** * Move selection *)

Section move_selection.
Import MinesweeperAI.
Implicit Types (c x : cell) (st : AI) (l : list cell).

Lemma set_pop_elem (choice : nat) (s : gset cell) :
  s ≠ ∅ → ∃ x, (set_pop choice s).1 = Some x ∧ x ∈ s.
Proof.
  intros Hne. unfold set_pop.
  assert (length (elements s) ≠ 0)%nat as Hlen.
  { intros H. apply nil_length_inv, elements_empty_inv in H.
    apply Hne. by apply leibniz_equiv. }
  destruct (elements s !! (choice `mod` length (elements s))%nat)
    as [x|] eqn:Hx.
  - exists x. split; [done|].
    apply elem_of_elements, list_elem_of_lookup. eauto.
  - apply lookup_ge_None in Hx.
    pose proof (Nat.mod_upper_bound choice _ Hlen). lia.
Qed.

Lemma list_remove_length x l :
  x ∈ l → S (length (list_remove x l)) = length l.
Proof.
  induction l as [|y l IH]; [by intros ?%elem_of_nil|].
  intros Hx. simpl. destruct (decide (y = x)); [done|].
  simpl. rewrite IH; [done|]. set_solver.
Qed.

Lemma list_remove_subset x l y : y ∈ list_remove x l → y ∈ l.
Proof.
  induction l as [|z l IH]; simpl; [done|].
  destruct (decide (z = x)); set_solver.
Qed.

Lemma list_remove_other x l y : y ∈ l → y = x ∨ y ∈ list_remove x l.
Proof.
  induction l as [|z l IH]; simpl; [by intros ?%elem_of_nil|].
  destruct (decide (z = x)); set_solver.
Qed.

Lemma random_choice_elem (rnd : nat → nat) (k : nat) (m0 : cell) l :
  default m0 ((m0 :: l) !! (rnd k `mod` length (m0 :: l))%nat) ∈ m0 :: l.
Proof.
  destruct ((m0 :: l) !! (rnd k `mod` length (m0 :: l))%nat) as [x|] eqn:Hx;
    simpl.
  - apply list_elem_of_lookup. eauto.
  - set_solver.
Qed.

Lemma random_loop_spec (rnd : nat → nat) st (fuel : nat) :
  ∀ (k : nat) l, (length l ≤ fuel)%nat →
  ∃ r, random_loop fuel rnd k st l = Some r
       ∧ (r = None ↔ ∀ c, c ∈ l → c ∈ moves_made st ∪ mines st)
       ∧ (∀ c, r = Some c → c ∈ l ∧ (c ∉ moves_made st) ∧ (c ∉ mines st)).
Proof.
  induction fuel as [|fuel IH]; intros k l Hlen.
  - destruct l; [|simpl in Hlen; lia].
    exists None. simpl. repeat split; try done.
    intros _ c ?%elem_of_nil. done.
  - destruct l as [|m0 l].
    { exists None. simpl. repeat split; try done.
      intros _ c ?%elem_of_nil. done. }
    cbn [random_loop].
    pose proof (random_choice_elem rnd k m0 l) as Hin.
    set (mv := default m0 ((m0 :: l) !! (rnd k `mod` length (m0 :: l))%nat))
      in *.
    destruct (decide ((mv ∉ moves_made st) ∧ (mv ∉ mines st))) as [Hok|Hno].
    + exists (Some mv). split; [done|]. split.
      * split; [done|]. intros Hall. specialize (Hall mv Hin). set_solver.
      * intros c [= <-]. tauto.
    + pose proof (list_remove_length mv _ Hin) as Hl.
      destruct (IH (S k) (list_remove mv (m0 :: l))) as (r & Hr & Hnone & Hsome).
      { lia. }
      exists r. split; [done|]. split.
      * rewrite Hnone. split.
        -- intros Hall c Hc.
           destruct (list_remove_other mv _ c Hc) as [->|Hc']; [|by apply Hall].
           apply not_and_l in Hno. destruct Hno as [H|H];
             apply dec_stable in H; set_solver.
        -- intros Hall c Hc. apply Hall. by eapply list_remove_subset.
      * intros c Hc. destruct (Hsome c Hc) as (H1 & H2).
        split; [by eapply list_remove_subset|done].
Qed.

Lemma elem_of_range (n i : Z) : i ∈ range n ↔ 0 ≤ i < n.
Proof.
  unfold range. rewrite list_elem_of_fmap. split.
  - intros (k & -> & Hk). apply elem_of_seq in Hk. lia.
  - intros Hi. exists (Z.to_nat i). split; [lia|].
    apply elem_of_seq. lia.
Qed.

Lemma elem_of_possible_moves st c :
  c ∈ possible_moves st ↔ in_bounds (height st) (width st) c = true.
Proof.
  unfold possible_moves, in_bounds. rewrite bool_decide_eq_true.
  rewrite list_elem_of_bind. split.
  - intros (i & Hj & Hi). apply list_elem_of_bind in Hj as (j & Hc & Hj).
    apply list_elem_of_singleton in Hc as ->.
    apply elem_of_range in Hi, Hj. simpl. lia.
  - intros H. exists c.1. split; [|apply elem_of_range; lia].
    apply list_elem_of_bind. exists c.2.
    split; [|apply elem_of_range; lia].
    destruct c. by apply list_elem_of_singleton.
Qed.

Lemma make_random_move_spec (rnd : nat → nat) st :
  ∃ r, make_random_move rnd st = Some r
      ∧ (r = None ↔
           ∀ c, in_bounds (height st) (width st) c = true →
                c ∈ moves_made st ∪ mines st)
      ∧ (∀ c, r = Some c →
           in_bounds (height st) (width st) c = true
           ∧ (c ∉ moves_made st) ∧ (c ∉ mines st)).
Proof.
  unfold make_random_move.
  destruct (random_loop_spec rnd st (length (possible_moves st)) 0%nat
              (possible_moves st) (le_n _)) as (r & Hr & Hnone & Hsome).
  exists r. split; [exact Hr|]. split.
  - rewrite Hnone. split; intros H c Hc; apply H;
      by apply elem_of_possible_moves.
  - intros c Hc. destruct (Hsome c Hc) as [H1 H2].
    split; [by apply elem_of_possible_moves|done].
Qed.

End move_selection.

(** [C9] [make_safe_move] returns [None] exactly when
    [safes - moves_made] is empty and otherwise an element of that set,
    whatever element [pop] selects; [make_random_move] terminates for
    every sequence of random draws, returns [None] exactly when every
    cell of the grid is in [moves_made ∪ mines], and otherwise returns a
    grid cell that is in neither. *)
Theorem move_selection_exhaustion (choice : nat) (rnd : nat → nat) (st : AI) :
  ((MinesweeperAI.make_safe_move choice st).1 = None
     ↔ safes st ∖ moves_made st = ∅)
  ∧ (∀ c, (MinesweeperAI.make_safe_move choice st).1 = Some c →
          c ∈ safes st ∖ moves_made st)
  ∧ ∃ r, MinesweeperAI.make_random_move rnd st = Some r
      ∧ (r = None ↔
           ∀ c, in_bounds (height st) (width st) c = true →
                c ∈ moves_made st ∪ mines st)
      ∧ (∀ c, r = Some c →
           in_bounds (height st) (width st) c = true
           ∧ (c ∉ moves_made st) ∧ (c ∉ mines st)).
Proof.
  split; [|split].
  - unfold MinesweeperAI.make_safe_move.
    destruct (bool_decide (safes st ∖ moves_made st = ∅)) eqn:He.
    + by apply bool_decide_eq_true in He.
    + apply bool_decide_eq_false in He.
      destruct (set_pop_elem choice _ He) as (x & Hx & Hin).
      simpl. rewrite Hx. done.
  - intros c. unfold MinesweeperAI.make_safe_move.
    destruct (bool_decide (safes st ∖ moves_made st = ∅)) eqn:He; [done|].
    apply bool_decide_eq_false in He.
    destruct (set_pop_elem choice _ He) as (x & Hx & Hin).
    simpl. rewrite Hx. by intros [= <-].
  - apply make_random_move_spec.
Qed.

(** [C10] [make_safe_move] leaves the engine state as it was: [safes],
    [mines], [moves_made] and the knowledge list after the call are the
    ones before it, whichever element the [pop] on the local difference
    set selects. *)
Theorem make_safe_move_read_only (choice : nat) (st : AI) :
  (MinesweeperAI.make_safe_move choice st).2 = st
  ∧ safes (MinesweeperAI.make_safe_move choice st).2 = safes st
  ∧ mines (MinesweeperAI.make_safe_move choice st).2 = mines st
  ∧ moves_made (MinesweeperAI.make_safe_move choice st).2 = moves_made st
  ∧ knowledge (MinesweeperAI.make_safe_move choice st).2 = knowledge st.
Proof.
  unfold MinesweeperAI.make_safe_move.
  destruct (bool_decide (safes st ∖ moves_made st = ∅)); done.
Qed.

(** * Marking cells in the knowledge base *)

Section marking.
Import MinesweeperAI.
Implicit Types (c x : cell) (st : AI) (d : gset cell) (s : Sentence).

Lemma mark_safes_list (l : list cell) st :
  foldl (λ a c, mark_safe c a) st l
  = mkAI (height st) (width st) (moves_made st) (mines st)
         (list_to_set l ∪ safes st)
         (strip_safes (list_to_set l) <$> knowledge st).
Proof.
  revert st. induction l as [|x l IH]; intros st.
  - destruct st as [h w mm mi sa kn]; simpl. f_equal; [set_solver|].
    rewrite <- (list_fmap_id kn) at 1. apply list_fmap_ext.
    intros i s _. apply sentence_ext; simpl; [set_solver|done].
  - simpl. rewrite IH. unfold mark_safe at 1 2 3 4 5 6; simpl.
    f_equal; [set_solver|].
    rewrite <- list_fmap_compose. apply list_fmap_ext.
    intros i s _. unfold compose, strip_safes.
    apply sentence_ext; cbn [cells count]; [|done].
    rewrite mark_safe_cells. set_solver.
Qed.

Lemma mark_mines_list (l : list cell) st :
  NoDup l →
  foldl (λ a c, mark_mine c a) st l
  = mkAI (height st) (width st) (moves_made st)
         (list_to_set l ∪ mines st) (safes st)
         (strip_mines (list_to_set l) <$> knowledge st).
Proof.
  intros Hnd. revert st.
  induction Hnd as [|x l Hx Hnd IH]; intros st.
  - destruct st as [h w mm mi sa kn]; simpl. f_equal; [set_solver|].
    rewrite <- (list_fmap_id kn) at 1. apply list_fmap_ext.
    intros i s _. apply sentence_ext; simpl; [set_solver|].
    replace (cells s ∩ ∅) with (∅ : gset cell) by set_solver.
    rewrite size_empty. lia.
  - simpl. rewrite IH. unfold mark_mine at 1 2 3 4 5 6; simpl.
    f_equal; [set_solver|].
    rewrite <- list_fmap_compose. apply list_fmap_ext.
    intros i s _. unfold compose, strip_mines.
    apply sentence_ext; cbn [cells count].
    + rewrite mark_mine_cells. set_solver.
    + rewrite mark_mine_cells, mark_mine_count.
      assert (cells s ∩ ({[x]} ∪ list_to_set l)
              = (cells s ∩ {[x]}) ∪ (cells s ∖ {[x]}) ∩ list_to_set l)
        as -> by set_solver.
      rewrite (size_union (cells s ∩ {[x]})
                 ((cells s ∖ {[x]}) ∩ list_to_set l)) by set_solver.
      destruct (decide (x ∈ cells s)) as [Hin|Hin].
      * assert (cells s ∩ {[x]} = {[x]}) as -> by set_solver.
        rewrite size_singleton. lia.
      * assert (cells s ∩ {[x]} = ∅) as -> by set_solver.
        rewrite size_empty. lia.
Qed.

Lemma mark_safes_eq d st :
  mark_safes d st
  = mkAI (height st) (width st) (moves_made st) (mines st)
         (d ∪ safes st) (strip_safes d <$> knowledge st).
Proof.
  unfold mark_safes. rewrite mark_safes_list.
  by rewrite (leibniz_equiv _ _ (list_to_set_elements d)).
Qed.

Lemma mark_mines_eq d st :
  mark_mines d st
  = mkAI (height st) (width st) (moves_made st)
         (d ∪ mines st) (safes st) (strip_mines d <$> knowledge st).
Proof.
  unfold mark_mines. rewrite mark_mines_list by apply NoDup_elements.
  by rewrite (leibniz_equiv _ _ (list_to_set_elements d)).
Qed.

End marking.

(** * Soundness of the knowledge base with respect to the board *)

Lemma foldl_invariant {A B} (P : A → Prop) (Q : B → Prop) (f : A → B → A)
  (l : list B) (a : A) :
  (∀ a x, P a → Q x → P (f a x)) → Forall Q l → P a → P (foldl f a l).
Proof.
  intros Hf Hl. revert a.
  induction Hl as [|x l Hx Hl IH]; intros a Ha; simpl; [done|].
  apply IH. by apply Hf.
Qed.

Lemma around_NoDup (c : cell) : NoDup (around c).
Proof.
  destruct c as [i j]. unfold around, range3. simpl.
  repeat (apply NoDup_cons; split;
          [rewrite ?elem_of_cons, elem_of_nil; intros H;
           repeat (destruct H as [H|H]; [inversion H; lia|]); done|]).
  apply NoDup_nil. done.
Qed.

Section soundness.
Import MinesweeperAI.
Context (g : Minesweeper.t).
#[local] Abbreviation b := (Minesweeper.board g).
Implicit Types (c x : cell) (st : AI) (d : gset cell) (s : Sentence).

Lemma mines_in_all_safe d :
  (∀ x, x ∈ d → b x = false) → mines_in b d = 0.
Proof.
  intros H. unfold mines_in.
  assert (filter (λ x, b x = true) d = ∅) as ->; [|by rewrite size_empty].
  apply set_eq; intros x. rewrite elem_of_filter.
  split; [|set_solver]. intros [Hb Hx]. rewrite (H x Hx) in Hb. done.
Qed.

Lemma sound_mark_safe c st :
  b c = false → sound g st → sound g (mark_safe c st).
Proof.
  intros Hc (Hh & Hw & Hs & Hm & Hk). unfold sound; simpl.
  repeat split; try done.
  - intros x [->%elem_of_singleton|Hx]%elem_of_union; [done|by apply Hs].
  - apply Forall_fmap. eapply Forall_impl; [exact Hk|].
    intros s Hs'. by apply sentence_true_mark_safe.
Qed.

Lemma sound_mark_mine c st :
  b c = true → sound g st → sound g (mark_mine c st).
Proof.
  intros Hc (Hh & Hw & Hs & Hm & Hk). unfold sound; simpl.
  repeat split; try done.
  - intros x [->%elem_of_singleton|Hx]%elem_of_union; [done|by apply Hm].
  - apply Forall_fmap. eapply Forall_impl; [exact Hk|].
    intros s Hs'. by apply sentence_true_mark_mine.
Qed.

Lemma sound_mark_safes d st :
  (∀ x, x ∈ d → b x = false) → sound g st → sound g (mark_safes d st).
Proof.
  intros Hd Hst. unfold mark_safes.
  apply (foldl_invariant (sound g) (λ x, b x = false)); [|by apply Forall_forall; intros x ?%elem_of_elements; apply Hd|done].
  intros a x Ha Hx. by apply sound_mark_safe.
Qed.

Lemma sound_mark_mines d st :
  (∀ x, x ∈ d → b x = true) → sound g st → sound g (mark_mines d st).
Proof.
  intros Hd Hst. unfold mark_mines.
  apply (foldl_invariant (sound g) (λ x, b x = true)); [|by apply Forall_forall; intros x ?%elem_of_elements; apply Hd|done].
  intros a x Ha Hx. by apply sound_mark_mine.
Qed.

(** The neighbour loop of [add_knowledge] and the loop of
    [nearby_mines] run over the same cells: what the first removes from
    the count is what the second counted among known mines. *)
Lemma neighbour_loop_balance st c (l : list cell) :
  sound g st → NoDup l →
  ∀ (cs : list cell) (n m : Z), (∀ x, x ∈ cs → x ∉ l) →
  (foldl (neighbour_step st c) (cs, n) l).2
    + foldl (Minesweeper.nearby_mines_step g c) m l
    - mines_in b (list_to_set (foldl (neighbour_step st c) (cs, n) l).1)
  = n + m - mines_in b (list_to_set cs).
Proof.
  intros (Hh & Hw & Hs & Hm & _) Hnd.
  induction Hnd as [|x l Hx Hnd IH]; intros cs n m Hcs; simpl; [lia|].
  unfold neighbour_step at 2 4. unfold Minesweeper.nearby_mines_step at 2.
  rewrite Hh, Hw.
  destruct (in_bounds (Minesweeper.height g) (Minesweeper.width g) x) eqn:Hb;
    destruct (decide (x = c)) as [Hxc|Hxc]; simpl.
  - apply IH. intros y Hy. specialize (Hcs y Hy). set_solver.
  - assert (∀ y, y ∈ cs → y ∉ l) as Hcs'
      by (intros y Hy; specialize (Hcs y Hy); set_solver).
    destruct (decide (x ∈ mines st)) as [Hxm|Hxm].
    + rewrite decide_False by tauto. simpl.
      rewrite (Hm x Hxm).
      pose proof (IH cs (n - 1) (m + 1) Hcs'). lia.
    + destruct (decide (x ∈ safes st)) as [Hxs|Hxs].
      * rewrite decide_False by tauto. simpl.
        rewrite (Hs x Hxs). by apply IH.
      * rewrite decide_True by tauto. simpl.
        assert (∀ y, y ∈ cs ++ [x] → y ∉ l) as Hcs''.
        { intros y [Hy| ->%list_elem_of_singleton]%elem_of_app; auto. }
        pose proof (IH (cs ++ [x]) n (if b x then m + 1 else m) Hcs'') as H.
        rewrite (leibniz_equiv _ _ (list_to_set_snoc cs x)) in H.
        rewrite mines_in_union, mines_in_singleton in H.
        -- destruct (b x); lia.
        -- apply disjoint_singleton_r. intros Hin%elem_of_list_to_set.
           specialize (Hcs x Hin). set_solver.
  - apply IH. intros y Hy. specialize (Hcs y Hy). set_solver.
  - apply IH. intros y Hy. specialize (Hcs y Hy). set_solver.
Qed.

Lemma new_sentence_true st c :
  sound g st →
  sentence_true b (new_sentence_of st c (Minesweeper.nearby_mines g c)).
Proof.
  intros Hst. unfold sentence_true, new_sentence_of, Sentence.init.
  cbn [cells count].
  pose proof (neighbour_loop_balance st c (around c) Hst (around_NoDup c)
                [] (Minesweeper.nearby_mines g c) 0) as H.
  unfold Minesweeper.nearby_mines in *.
  rewrite mines_in_empty in H. 
  specialize (H ltac:(intros x ?%elem_of_nil; done)). lia.
Qed.

End soundness.

Section engine_soundness.
Import MinesweeperAI.
Context (g : Minesweeper.t).
#[local] Abbreviation b := (Minesweeper.board g).
Implicit Types (c x : cell) (st : AI) (d : gset cell) (s : Sentence).

Lemma sound_record_observation c st :
  b c = false → sound g st →
  sound g (record_observation c (Minesweeper.nearby_mines g c) st).
Proof.
  intros Hc Hst. unfold record_observation.
  set (st1 := mkAI _ _ ({[c]} ∪ moves_made st) _ _ _).
  assert (sound g (mark_safe c st1)) as H2 by (by apply sound_mark_safe).
  pose proof (new_sentence_true g _ c H2) as Hnew.
  destruct H2 as (Hh & Hw & Hs & Hm & Hk).
  unfold sound, set_knowledge; cbn [height width safes mines knowledge].
  repeat split; try done.
  apply Forall_app. split; [done|]. by apply Forall_singleton.
Qed.

Lemma sound_subset_rule small big (acc : AI * list Sentence) :
  sound g acc.1 → Forall (sentence_true b) acc.2 →
  sentence_true b small → sentence_true b big →
  cells small ⊆ cells big →
  sound g (subset_rule small big acc).1
  ∧ Forall (sentence_true b) (subset_rule small big acc).2.
Proof.
  intros Hst Hinf Hsmall Hbig Hsub. unfold subset_rule.
  pose proof (mines_in_difference b _ _ Hsub) as Hdiff.
  unfold sentence_true in Hsmall, Hbig.
  destruct (decide (count small = count big)) as [Heq|Hne]; simpl.
  - split; [|done]. apply sound_mark_safes; [|done].
    intros x Hx. eapply mines_in_zero; [|exact Hx]. lia.
  - destruct (decide (Z.of_nat (size (cells big ∖ cells small))
                      = count big - count small)) as [Hfull|Hpart]; simpl.
    + split; [|done]. apply sound_mark_mines; [|done].
      intros x Hx. eapply mines_in_full; [|exact Hx]. lia.
    + split; [done|]. apply Forall_app. split; [done|].
      apply Forall_singleton. unfold sentence_true; simpl. lia.
Qed.

Lemma sound_compare_step (acc : AI * list Sentence) (i : nat) :
  sound g acc.1 ∧ Forall (sentence_true b) acc.2 →
  sound g (compare_step acc i).1
  ∧ Forall (sentence_true b) (compare_step acc i).2.
Proof.
  intros [Hst Hinf]. unfold compare_step.
  destruct (knowledge acc.1 !! i) as [sentence|] eqn:Hi; [|done].
  destruct (last (knowledge acc.1)) as [new_sentence|] eqn:Hl; [|done].
  assert (sentence_true b sentence ∧ sentence_true b new_sentence)
    as [H1 H2].
  { destruct Hst as (_ & _ & _ & _ & Hk).
    rewrite Forall_forall in Hk. split; apply Hk.
    - by eapply list_elem_of_lookup_2.
    - by apply last_Some_elem_of. }
  destruct (Sentence.eqb sentence new_sentence); [done|].
  destruct (decide (cells sentence ⊆ cells new_sentence));
    [by apply sound_subset_rule|].
  destruct (decide (cells new_sentence ⊆ cells sentence));
    [by apply sound_subset_rule|done].
Qed.

Lemma sound_compare_all st :
  sound g st →
  sound g (compare_all st).1 ∧ Forall (sentence_true b) (compare_all st).2.
Proof.
  intros Hst. unfold compare_all.
  apply (foldl_invariant
           (λ acc, sound g acc.1 ∧ Forall (sentence_true b) acc.2)
           (λ _, True)).
  - intros acc i H _. by apply sound_compare_step.
  - by apply Forall_forall.
  - by split.
Qed.

Lemma remove_duplicates_loop_elem (l acc : list Sentence) s :
  s ∈ foldl remove_duplicates_step acc l → s ∈ acc ∨ s ∈ l.
Proof.
  revert acc. induction l as [|y l IH]; intros acc; simpl; [tauto|].
  intros [H|H]%IH; [|set_solver].
  unfold remove_duplicates_step in H.
  destruct (sentence_in y acc); set_solver.
Qed.

Lemma sound_remove_duplicates st :
  sound g st → sound g (remove_duplicates st).
Proof.
  intros (Hh & Hw & Hs & Hm & Hk). unfold sound, remove_duplicates; simpl.
  repeat split; try done.
  rewrite Forall_forall in Hk. apply Forall_forall.
  intros s [H|H]%remove_duplicates_loop_elem; [set_solver|by apply Hk].
Qed.

Lemma truthy_Some (o : option (gset cell)) :
  truthy o = true → ∃ X, o = Some X.
Proof. destruct o; [eauto|done]. Qed.

Lemma sound_harvest_step (acc : AI * list nat) (i : nat) :
  sound g acc.1 → sound g (harvest_step acc i).1.
Proof.
  intros Hst. unfold harvest_step.
  destruct (knowledge acc.1 !! i) as [s|] eqn:Hi; [|done].
  assert (sentence_true b s) as Hs.
  { destruct Hst as (_ & _ & _ & _ & Hk).
    rewrite Forall_forall in Hk. apply Hk. by eapply list_elem_of_lookup_2. }
  unfold sentence_true in Hs. cbn [fst snd].
  set (st1 := if truthy (Sentence.known_safes s).1 then _ else _).
  assert (sound g st1) as H1.
  { subst st1. destruct (truthy (Sentence.known_safes s).1) eqn:Ht; [|done].
    apply sound_mark_safes; [|done].
    unfold Sentence.known_safes in *.
    destruct (decide (count s = 0)); [|done]. simpl.
    intros x Hx. eapply mines_in_zero; [|exact Hx]. lia. }
  destruct (truthy (Sentence.known_mines s).1) eqn:Ht; [|done].
  apply sound_mark_mines; [|done].
  unfold Sentence.known_mines in *.
  destruct (decide (Z.of_nat (size (cells s)) = count s)); [|done]. simpl.
  intros x Hx. eapply mines_in_full; [|exact Hx]. lia.
Qed.

Lemma sound_add_known_safes_and_mines st :
  sound g st → sound g (add_known_safes_and_mines st).
Proof.
  intros Hst. unfold add_known_safes_and_mines.
  set (r := foldl harvest_step (st, []) (seq 0 (length (knowledge st)))).
  assert (sound g r.1) as (Hh & Hw & Hs & Hm & Hk).
  { subst r. apply (foldl_invariant (λ acc, sound g acc.1) (λ _, True)).
    - intros acc i H _. by apply sound_harvest_step.
    - by apply Forall_forall.
    - done. }
  unfold sound, set_knowledge; cbn [height width safes mines knowledge].
  repeat split; try done.
  rewrite Forall_forall in Hk. apply Forall_forall.
  intros s (i & _ & Hi)%list_elem_of_omap.
  apply Hk. by eapply list_elem_of_lookup_2.
Qed.

Lemma sound_add_knowledge c st :
  b c = false → sound g st →
  sound g (add_knowledge c (Minesweeper.nearby_mines g c) st).
Proof.
  intros Hc Hst. unfold add_knowledge.
  apply sound_add_known_safes_and_mines, sound_remove_duplicates.
  destruct (sound_compare_all _ (sound_record_observation c st Hc Hst))
    as [(Hh & Hw & Hs & Hm & Hk) Hinf].
  unfold sound, extend_knowledge, set_knowledge;
    cbn [height width safes mines knowledge].
  repeat split; try done. by apply Forall_app.
Qed.

Lemma sound_init : sound g (init (Minesweeper.height g) (Minesweeper.width g)).
Proof. unfold sound, init; simpl. repeat split; try done; set_solver. Qed.

Lemma sound_call st st' : call g st st' → sound g st → sound g st'.
Proof.
  intros [st0 c Hc|st0 c Hc] Hst.
  - by apply sound_add_knowledge.
  - by apply sound_mark_mine.
Qed.

Lemma sound_reachable st : reachable g st → sound g st.
Proof.
  unfold reachable. revert st. apply rtc_ind_r.
  - apply sound_init.
  - intros st1 st2 _ H12 IH. by eapply sound_call.
Qed.

Lemma sound_disjoint st : sound g st → safes st ∩ mines st = ∅.
Proof.
  intros (_ & _ & Hs & Hm & _). apply set_eq; intros x.
  split; [|set_solver]. intros [H1 H2]%elem_of_intersection.
  specialize (Hs x H1). specialize (Hm x H2). congruence.
Qed.

End engine_soundness.

(** * Monotonicity of the conclusions *)

Section monotone.
Import MinesweeperAI.
Implicit Types (c x : cell) (st : AI) (d : gset cell) (s : Sentence).

Lemma grows_refl st : grows st st.
Proof. by split. Qed.

Lemma grows_trans st1 st2 st3 : grows st1 st2 → grows st2 st3 → grows st1 st3.
Proof. unfold grows. set_solver. Qed.

Lemma grows_mark_safes d st : grows st (mark_safes d st).
Proof. rewrite mark_safes_eq. unfold grows; simpl. set_solver. Qed.

Lemma grows_mark_mines d st : grows st (mark_mines d st).
Proof. rewrite mark_mines_eq. unfold grows; simpl. set_solver. Qed.

Lemma grows_mark_mine c st : grows st (mark_mine c st).
Proof. unfold grows; simpl. set_solver. Qed.

Lemma grows_record_observation c n st : grows st (record_observation c n st).
Proof. unfold grows; simpl. set_solver. Qed.

Lemma grows_subset_rule small big (acc : AI * list Sentence) :
  grows acc.1 (subset_rule small big acc).1.
Proof.
  unfold subset_rule.
  destruct (decide (count small = count big)); simpl;
    [apply grows_mark_safes|].
  destruct (decide (Z.of_nat (size (cells big ∖ cells small))
                    = count big - count small)); simpl;
    [apply grows_mark_mines|apply grows_refl].
Qed.

Lemma grows_compare_step (acc : AI * list Sentence) (i : nat) :
  grows acc.1 (compare_step acc i).1.
Proof.
  unfold compare_step.
  destruct (knowledge acc.1 !! i) as [sentence|]; [|apply grows_refl].
  destruct (last (knowledge acc.1)) as [new_sentence|]; [|apply grows_refl].
  destruct (Sentence.eqb sentence new_sentence); [apply grows_refl|].
  destruct (decide (cells sentence ⊆ cells new_sentence));
    [apply grows_subset_rule|].
  destruct (decide (cells new_sentence ⊆ cells sentence));
    [apply grows_subset_rule|apply grows_refl].
Qed.

Lemma grows_compare_all st : grows st (compare_all st).1.
Proof.
  unfold compare_all.
  apply (foldl_invariant (λ acc, grows st acc.1) (λ _, True)).
  - intros acc i H _. eapply grows_trans; [exact H|apply grows_compare_step].
  - by apply Forall_forall.
  - apply grows_refl.
Qed.

Lemma grows_harvest_step (acc : AI * list nat) (i : nat) :
  grows acc.1 (harvest_step acc i).1.
Proof.
  unfold harvest_step.
  destruct (knowledge acc.1 !! i) as [s|]; [|apply grows_refl].
  cbn [fst snd].
  eapply grows_trans with
    (st2 := if truthy (Sentence.known_safes s).1
            then mark_safes (default ∅ (Sentence.known_safes s).1) acc.1
            else acc.1).
  - destruct (truthy _); [apply grows_mark_safes|apply grows_refl].
  - destruct (truthy (Sentence.known_mines s).1);
      [apply grows_mark_mines|apply grows_refl].
Qed.

Lemma grows_add_known_safes_and_mines st :
  grows st (add_known_safes_and_mines st).
Proof.
  unfold add_known_safes_and_mines.
  set (r := foldl harvest_step (st, []) (seq 0 (length (knowledge st)))).
  change (grows st r.1). subst r.
  apply (foldl_invariant (λ acc, grows st acc.1) (λ _, True)).
  - intros acc i H _. eapply grows_trans; [exact H|apply grows_harvest_step].
  - by apply Forall_forall.
  - apply grows_refl.
Qed.

Lemma grows_add_knowledge c n st : grows st (add_knowledge c n st).
Proof.
  unfold add_knowledge.
  eapply grows_trans; [|apply grows_add_known_safes_and_mines].
  change (grows st (compare_all (record_observation c n st)).1).
  eapply grows_trans; [apply grows_record_observation|apply grows_compare_all].
Qed.

Lemma grows_call g st st' : call g st st' → grows st st'.
Proof.
  intros [st0 c Hc|st0 c Hc];
    [apply grows_add_knowledge|apply grows_mark_mine].
Qed.

Lemma grows_calls g st st' : rtc (call g) st st' → grows st st'.
Proof.
  induction 1 as [|st1 st2 st3 H12 H23 IH]; [apply grows_refl|].
  eapply grows_trans; [by eapply grows_call|done].
Qed.

End monotone.

(** [C4] For every sequence of [add_knowledge] and [mark_mine] calls that
    satisfies the documented preconditions (an observed cell is not a
    mine and comes with the count the board reports, a flagged cell is a
    mine), every reachable state has [safes ∩ mines = ∅]; and along any
    continuation of the sequence both sets only grow, so a cell placed in
    one of them stays there and never appears in the other. *)
Theorem safes_mines_disjoint_monotone (g : Minesweeper.t) (st st' : AI) :
  reachable g st → rtc (call g) st st' →
  safes st ∩ mines st = ∅
  ∧ safes st ⊆ safes st'
  ∧ mines st ⊆ mines st'
  ∧ safes st ∩ mines st' = ∅
  ∧ mines st ∩ safes st' = ∅.
Proof.
  intros Hst Hcalls.
  assert (reachable g st') as Hst' by (by eapply rtc_trans).
  apply sound_reachable, sound_disjoint in Hst, Hst'.
  destruct (grows_calls g st st' Hcalls) as [Hs Hm].
  repeat split; try done; set_solver.
Qed.

(** * The subset rule of the comparison loop *)

Section comparison.
Import MinesweeperAI.
Implicit Types (c x : cell) (st : AI) (d : gset cell) (s : Sentence).

Lemma sentence_in_spec s (l : list Sentence) :
  sentence_in s l = true ↔ s ∈ l.
Proof.
  unfold sentence_in. rewrite existsb_exists. split.
  - intros (y & Hy & ->%eqb_eq). by apply list_elem_of_In.
  - intros H. exists s. split; [by apply list_elem_of_In|by apply eqb_eq].
Qed.

Lemma remove_duplicates_loop_NoDup (l acc : list Sentence) :
  NoDup acc → NoDup (foldl remove_duplicates_step acc l).
Proof.
  revert acc. induction l as [|y l IH]; intros acc Hacc; simpl; [done|].
  apply IH. unfold remove_duplicates_step.
  destruct (sentence_in y acc) eqn:Hy; [done|].
  apply NoDup_app. split; [done|]. split; [|apply NoDup_singleton].
  intros x Hx ->%list_elem_of_singleton.
  apply sentence_in_spec in Hx. congruence.
Qed.

Lemma remove_duplicates_loop_keeps (l acc : list Sentence) s :
  s ∈ acc ∨ s ∈ l → s ∈ foldl remove_duplicates_step acc l.
Proof.
  revert acc. induction l as [|y l IH]; intros acc; simpl.
  - intros [H|H%elem_of_nil]; done.
  - intros H. apply IH. unfold remove_duplicates_step.
    destruct (sentence_in y acc) eqn:Hy.
    + apply sentence_in_spec in Hy. set_solver.
    + set_solver.
Qed.




(** The loop as a whole: every index is visited, the list keeps its
    length, and what an iteration marks or records is still there when
    the loop ends. *)










End comparison.

(** * Sentences with an empty cell set *)

Section empty_sentences.
Import MinesweeperAI.
Implicit Types (c x : cell) (st : AI) (d : gset cell) (s : Sentence).

Lemma holds_empty_strip_safes d (k : list Sentence) :
  holds_empty k → holds_empty (strip_safes d <$> k).
Proof.
  intros (s & Hs & He). exists (strip_safes d s). split.
  - apply list_elem_of_fmap. eauto.
  - unfold strip_safes; simpl. set_solver.
Qed.

Lemma holds_empty_strip_mines d (k : list Sentence) :
  holds_empty k → holds_empty (strip_mines d <$> k).
Proof.
  intros (s & Hs & He). exists (strip_mines d s). split.
  - apply list_elem_of_fmap. eauto.
  - unfold strip_mines; simpl. set_solver.
Qed.

Lemma holds_empty_subset_rule small big (acc : AI * list Sentence) :
  holds_empty (knowledge acc.1) →
  holds_empty (knowledge (subset_rule small big acc).1).
Proof.
  intros H. unfold subset_rule.
  destruct (decide (count small = count big)); simpl.
  { rewrite mark_safes_eq. by apply holds_empty_strip_safes. }
  destruct (decide (Z.of_nat (size (cells big ∖ cells small))
                    = count big - count small)); simpl; [|done].
  rewrite mark_mines_eq. by apply holds_empty_strip_mines.
Qed.

Lemma holds_empty_compare_step (acc : AI * list Sentence) (i : nat) :
  holds_empty (knowledge acc.1) →
  holds_empty (knowledge (compare_step acc i).1).
Proof.
  intros H. unfold compare_step.
  destruct (knowledge acc.1 !! i) as [sentence|]; [|done].
  destruct (last (knowledge acc.1)) as [new_sentence|]; [|done].
  destruct (Sentence.eqb sentence new_sentence); [done|].
  destruct (decide (cells sentence ⊆ cells new_sentence));
    [by apply holds_empty_subset_rule|].
  destruct (decide (cells new_sentence ⊆ cells sentence));
    [by apply holds_empty_subset_rule|done].
Qed.

Lemma holds_empty_compare_all st :
  holds_empty (knowledge st) → holds_empty (knowledge (compare_all st).1).
Proof.
  intros H. unfold compare_all.
  apply (foldl_invariant (λ acc, holds_empty (knowledge acc.1)) (λ _, True)).
  - intros acc i Ha _. by apply holds_empty_compare_step.
  - by apply Forall_forall.
  - done.
Qed.

(** What one harvest iteration does to the sentence stored at [j]: it is
    stripped of cells, and the list keeps its length. *)
Lemma harvest_step_lookup (acc : AI * list nat) (i j : nat) s :
  knowledge acc.1 !! j = Some s →
  ∃ s', knowledge (harvest_step acc i).1 !! j = Some s'
        ∧ cells s' ⊆ cells s.
Proof.
  intros Hj. unfold harvest_step.
  destruct (knowledge acc.1 !! i) as [si|]; [|eauto]. cbn [fst snd].
  set (st1 := if truthy (Sentence.known_safes si).1 then _ else _).
  assert (∃ s1, knowledge st1 !! j = Some s1 ∧ cells s1 ⊆ cells s)
    as (s1 & H1 & Hsub1).
  { subst st1. destruct (truthy (Sentence.known_safes si).1); [|eauto].
    rewrite mark_safes_eq; simpl. rewrite list_lookup_fmap, Hj; simpl.
    eexists; split; [done|]. simpl. set_solver. }
  destruct (truthy (Sentence.known_mines si).1); [|eauto].
  rewrite mark_mines_eq; simpl. rewrite list_lookup_fmap, H1; simpl.
  eexists; split; [done|]. simpl. set_solver.
Qed.

Lemma harvest_step_kept (acc : AI * list nat) (i j : nat) :
  j ∈ acc.2 → j ∈ (harvest_step acc i).2.
Proof.
  intros Hj. unfold harvest_step.
  destruct (knowledge acc.1 !! i) as [si|]; [|done]. cbn [fst snd].
  destruct (negb _); [|done]. apply elem_of_app. by left.
Qed.

Lemma harvest_step_empty (acc : AI * list nat) (i : nat) s :
  knowledge acc.1 !! i = Some s → cells s = ∅ →
  harvest_step acc i = (acc.1, acc.2 ++ [i]).
Proof.
  intros Hi He. unfold harvest_step. rewrite Hi.
  assert (truthy (Sentence.known_safes s).1 = false) as ->.
  { unfold Sentence.known_safes. destruct (decide (count s = 0)); [|done].
    simpl. by rewrite He, bool_decide_eq_true_2. }
  assert (truthy (Sentence.known_mines s).1 = false) as ->.
  { unfold Sentence.known_mines.
    destruct (decide (Z.of_nat (size (cells s)) = count s)); [|done].
    simpl. by rewrite He, bool_decide_eq_true_2. }
  simpl. by destruct acc.
Qed.

Lemma harvest_loop_empty (st : AI) (j : nat) s (n : nat) :
  knowledge st !! j = Some s → cells s = ∅ →
  let r := foldl harvest_step (st, []) (seq 0 n) in
  (∃ s', knowledge r.1 !! j = Some s' ∧ cells s' = ∅)
  ∧ ((j < n)%nat → j ∈ r.2).
Proof.
  intros Hj He. cbv zeta.
  induction n as [|n [(s' & Hs' & He') Hkept]].
  - simpl. split; [eauto|lia].
  - rewrite seq_S, foldl_snoc. cbn [Nat.add].
    set (acc := foldl harvest_step (st, []) (seq 0 n)) in *.
    split.
    + destruct (harvest_step_lookup acc n j s' Hs') as (s'' & H1 & H2).
      exists s''. split; [done|]. set_solver.
    + intros Hlt. destruct (decide (j = n)) as [->|Hne].
      * rewrite (harvest_step_empty acc n s' Hs' He'). simpl.
        apply elem_of_app. right. by apply list_elem_of_singleton.
      * apply harvest_step_kept, Hkept. lia.
Qed.

Lemma holds_empty_add_known_safes_and_mines st :
  holds_empty (knowledge st) →
  holds_empty (knowledge (add_known_safes_and_mines st)).
Proof.
  intros (s & (j & Hj)%list_elem_of_lookup_1 & He).
  pose proof (lookup_lt_Some _ _ _ Hj) as Hlt.
  destruct (harvest_loop_empty st j s (length (knowledge st)) Hj He)
    as [(s' & Hs' & He') Hkept].
  exists s'. split; [|done].
  unfold add_known_safes_and_mines; simpl.
  apply list_elem_of_omap. exists j. split; [by apply Hkept|done].
Qed.

Lemma holds_empty_remove_duplicates st :
  holds_empty (knowledge st) →
  holds_empty (knowledge (remove_duplicates st)).
Proof.
  intros (s & Hs & He). exists s. split; [|done].
  unfold remove_duplicates; simpl.
  apply remove_duplicates_loop_keeps. by right.
Qed.

End empty_sentences.

(** [C3] (as amended) [add_knowledge] appends the new sentence whatever
    its cell set, and neither the comparison loop, nor the removal of
    duplicates, nor the harvest drops a sentence because its cell set is
    empty: when the new sentence or a stored sentence has an empty cell
    set, the knowledge list after the call holds a sentence with an
    empty cell set. *)
Theorem empty_sentence_retained (c : cell) (n : Z) (st : AI) :
  holds_empty (knowledge (MinesweeperAI.record_observation c n st)) →
  last (knowledge (MinesweeperAI.record_observation c n st))
  = Some (MinesweeperAI.new_sentence_of
            (MinesweeperAI.mark_safe c st) c n)
  ∧ holds_empty (knowledge (MinesweeperAI.add_knowledge c n st)).
Proof.
  intros H. split.
  - unfold MinesweeperAI.record_observation, set_knowledge.
    cbn [knowledge]. apply last_snoc.
  - unfold MinesweeperAI.add_knowledge.
    apply holds_empty_add_known_safes_and_mines,
          holds_empty_remove_duplicates.
    unfold MinesweeperAI.extend_knowledge, set_knowledge. cbn [knowledge].
    destruct (holds_empty_compare_all _ H) as (s & Hs & He).
    exists s. split; [|done]. apply elem_of_app. by left.
Qed.

(** * Evaluating the engine on concrete games *)

Lemma play_reachable (g : Minesweeper.t) (cs : list cell) :
  Forall (λ c, Minesweeper.is_mine g c = false) cs →
  reachable g (play g cs).
Proof.
  unfold reachable, play.
  induction cs as [|c cs IH] using rev_ind; intros Hcs; [apply rtc_refl|].
  apply Forall_app in Hcs as [Hcs Hc].
  apply Forall_cons in Hc as [Hc _].
  rewrite foldl_snoc. eapply rtc_r; [by apply IH|].
  by apply call_observe.
Qed.

(** Counterexample to claim C3 as stated: on the 2x2 board without mines,
    after observing [(0,0)] and [(0,1)] the knowledge list holds the
    sentence with no cell. *)
Lemma empty_sentence_in_store :
  ¬ (∀ s, s ∈ knowledge (play empty_game [(0,0); (0,1)]) → cells s ≠ ∅).
Proof.
  intros H. apply (H (mkSentence ∅ 0)); [|done].
  apply (bool_decide_unpack _). by vm_compute.
Qed.

(** [C1] After the observations [(0,1)] and [(0,3)] on the row with mines
    at [(0,2)] and [(0,4)] the engine is in a reachable state that holds
    the sentence [({(0,0)}, 0)] although [(0,0)] is not in [safes] and no
    safe move is offered: one more harvest, and likewise one saturation
    pass of the specification, marks [(0,0)] safe and discards the
    sentence, so the state is not a fixed point. *)
Theorem observe_leaves_conclusion_unharvested :
  reachable row_game (play row_game [(0,1); (0,3)])
  ∧ knowledge (play row_game [(0,1); (0,3)]) = [mkSentence {[ (0,0) ]} 0]
  ∧ ((0,0) ∉ safes (play row_game [(0,1); (0,3)]))
  ∧ (∀ choice,
       (MinesweeperAI.make_safe_move choice
          (play row_game [(0,1); (0,3)])).1 = None)
  ∧ safes (MinesweeperAI.add_known_safes_and_mines
             (play row_game [(0,1); (0,3)]))
    = {[ (0,0) ]} ∪ safes (play row_game [(0,1); (0,3)])
  ∧ knowledge (MinesweeperAI.add_known_safes_and_mines
                 (play row_game [(0,1); (0,3)])) = []
  ∧ safes (spec_saturation_pass (play row_game [(0,1); (0,3)]))
    = {[ (0,0) ]} ∪ safes (play row_game [(0,1); (0,3)])
  ∧ knowledge (spec_saturation_pass (play row_game [(0,1); (0,3)])) = []
  ∧ spec_saturation_pass (play row_game [(0,1); (0,3)])
    ≠ play row_game [(0,1); (0,3)].
Proof.
  split; [|split; [|split; [|split; [|split; [|split; [|split; [|split]]]]]]].
  - apply play_reachable.
    repeat (apply Forall_cons; split; [by vm_compute|]). by apply Forall_nil.
  - vm_compute. reflexivity.
  - apply (bool_decide_unpack _). vm_compute. exact I.
  - intros choice. unfold MinesweeperAI.make_safe_move.
    assert (safes (play row_game [(0,1); (0,3)])
            ∖ moves_made (play row_game [(0,1); (0,3)]) = ∅) as ->
      by (vm_compute; reflexivity).
    by rewrite bool_decide_eq_true_2.
  - vm_compute. reflexivity.
  - vm_compute. reflexivity.
  - vm_compute. reflexivity.
  - vm_compute. reflexivity.
  - intros Heq.
    assert (length (knowledge (spec_saturation_pass
                                 (play row_game [(0,1); (0,3)])))
            = length (knowledge (play row_game [(0,1); (0,3)]))) as Hlen
      by (rewrite Heq; reflexivity).
    vm_compute in Hlen. discriminate Hlen.
Qed.

(** [C2] After the observations [(0,0)], [(1,0)], [(0,1)] and [(0,3)] on
    the 2x4 board with one mine at [(1,2)] the engine is in a reachable
    state whose knowledge list holds [({(0,2),(1,2),(1,3)}, 1)] while
    [(1,3)] is in [safes]: the sentence was inferred before [(1,3)] was
    marked and appended afterwards, so the cell was never removed from
    it. *)
Theorem resolved_cell_in_stored_sentence :
  reachable two_row_game (play two_row_game [(0,0); (1,0); (0,1); (0,3)])
  ∧ mkSentence {[ (0,2); (1,2); (1,3) ]} 1
      ∈ knowledge (play two_row_game [(0,0); (1,0); (0,1); (0,3)])
  ∧ (1,3) ∈ safes (play two_row_game [(0,0); (1,0); (0,1); (0,3)])
  ∧ ¬ (∀ s x, s ∈ knowledge (play two_row_game [(0,0); (1,0); (0,1); (0,3)])
              → x ∈ cells s
              → (x ∉ safes (play two_row_game [(0,0); (1,0); (0,1); (0,3)]))
                ∧ (x ∉ mines (play two_row_game [(0,0); (1,0); (0,1); (0,3)]))).
Proof.
  assert (mkSentence {[ (0,2); (1,2); (1,3) ]} 1
            ∈ knowledge (play two_row_game [(0,0); (1,0); (0,1); (0,3)]))
    as Hin by (apply (bool_decide_unpack _); by vm_compute).
  assert ((1,3) ∈ safes (play two_row_game [(0,0); (1,0); (0,1); (0,3)]))
    as Hsafe by (apply (bool_decide_unpack _); by vm_compute).
  split; [|split; [done|split; [done|]]].
  - apply play_reachable.
    repeat (apply Forall_cons; split; [by vm_compute|]). by apply Forall_nil.
  - intros H. destruct (H _ (1,3) Hin) as [Hno _].
    + apply (bool_decide_unpack _). by vm_compute.
    + exact (Hno Hsafe).
Qed.

(** * Pairs of stored sentences *)


(** * Instances of the conditional theorems *)

(** [empty_sentence_retained] on the 2x2 board without mines: observing
    [(0,1)] after [(0,0)] builds a sentence with no cell, and it stays. *)
Lemma empty_sentence_retained_witness :
  holds_empty
    (knowledge (MinesweeperAI.record_observation (0,1) 0
                  (play empty_game [(0,0)])))
  ∧ holds_empty
      (knowledge (MinesweeperAI.add_knowledge (0,1) 0
                    (play empty_game [(0,0)]))).
Proof.
  assert (holds_empty
            (knowledge (MinesweeperAI.record_observation (0,1) 0
                          (play empty_game [(0,0)])))) as H.
  { exists (mkSentence ∅ 0). split; [|reflexivity].
    apply (bool_decide_unpack _). vm_compute. exact I. }
  split; [exact H|].
  exact (proj2 (empty_sentence_retained (0,1) 0 (play empty_game [(0,0)]) H)).
Defined.

(** [safes_mines_disjoint_monotone] on the row game, from the state after
    observing [(0,1)] to the state after observing [(0,3)] as well. *)
Lemma safes_mines_disjoint_monotone_witness :
  reachable row_game (play row_game [(0,1)])
  ∧ rtc (call row_game) (play row_game [(0,1)])
        (MinesweeperAI.add_knowledge (0,3)
           (Minesweeper.nearby_mines row_game (0,3))
           (play row_game [(0,1)]))
  ∧ safes (play row_game [(0,1)]) ∩ mines (play row_game [(0,1)]) = ∅
  ∧ safes (play row_game [(0,1)])
    ∩ mines (MinesweeperAI.add_knowledge (0,3)
               (Minesweeper.nearby_mines row_game (0,3))
               (play row_game [(0,1)])) = ∅.
Proof.
  assert (reachable row_game (play row_game [(0,1)])) as H1.
  { apply play_reachable. apply Forall_cons. split; [|by apply Forall_nil].
    vm_compute. reflexivity. }
  assert (rtc (call row_game) (play row_game [(0,1)])
            (MinesweeperAI.add_knowledge (0,3)
               (Minesweeper.nearby_mines row_game (0,3))
               (play row_game [(0,1)]))) as H2.
  { apply rtc_once. apply call_observe. vm_compute. reflexivity. }
  split; [exact H1|]. split; [exact H2|].
  destruct (safes_mines_disjoint_monotone row_game _ _ H1 H2)
    as (Hd & _ & _ & Hd' & _).
  split; [exact Hd|exact Hd'].
Defined.

(** [sentence_count_invariant] on the sentence [({(0,0),(0,2)}, 1)] of the
    row game, whose mine [(0,2)] is marked. *)
Lemma sentence_count_invariant_witness :
  sentence_true (Minesweeper.board row_game) (mkSentence {[ (0,0); (0,2) ]} 1)
  ∧ Minesweeper.board row_game (0,2) = true
  ∧ 0 ≤ count (Sentence.mark_mine (0,2) (mkSentence {[ (0,0); (0,2) ]} 1))
      ≤ Z.of_nat (size (cells (Sentence.mark_mine (0,2)
                                 (mkSentence {[ (0,0); (0,2) ]} 1)))).
Proof.
  assert (sentence_true (Minesweeper.board row_game)
            (mkSentence {[ (0,0); (0,2) ]} 1)) as H.
  { unfold sentence_true. vm_compute. reflexivity. }
  split; [exact H|]. split; [vm_compute; reflexivity|].
  apply (proj1 (sentence_count_invariant (Minesweeper.board row_game) (0,2)
                  (mkSentence {[ (0,0); (0,2) ]} 1) H)).
  vm_compute. reflexivity.
Defined.


(** * Further properties of the individual functions *)

(** ** [remove_duplicates] *)

Section duplicates.
Import MinesweeperAI.
Implicit Types (s x y : Sentence) (l acc : list Sentence).

Lemma remove_duplicates_step_cons x y acc :
  remove_duplicates_step (x :: acc) y
  = if decide (y = x) then x :: acc
    else x :: remove_duplicates_step acc y.
Proof.
  unfold remove_duplicates_step.
  destruct (decide (y = x)) as [->|Hne].
  - assert (sentence_in x (x :: acc) = true) as ->; [|done].
    apply sentence_in_spec. set_solver.
  - destruct (sentence_in y acc) eqn:Hy.
    + assert (sentence_in y (x :: acc) = true) as ->; [|done].
      apply sentence_in_spec. apply sentence_in_spec in Hy. set_solver.
    + assert (sentence_in y (x :: acc) = false) as ->; [|done].
      apply not_true_iff_false. rewrite sentence_in_spec.
      apply not_true_iff_false in Hy. rewrite sentence_in_spec in Hy.
      set_solver.
Qed.

Lemma remove_duplicates_loop_cons x l acc :
  foldl remove_duplicates_step (x :: acc) l
  = x :: foldl remove_duplicates_step acc (filter (λ y, y ≠ x) l).
Proof.
  revert acc. induction l as [|y l IH]; intros acc; [done|].
  cbn [foldl]. rewrite remove_duplicates_step_cons.
  destruct (decide (y = x)) as [->|Hne].
  - rewrite filter_cons_False by (intros H; by apply H). apply IH.
  - rewrite filter_cons_True by done. cbn [foldl]. apply IH.
Qed.

Lemma remove_duplicates_loop_sublist l acc :
  sublist (foldl remove_duplicates_step acc l) (acc ++ l).
Proof.
  revert acc. induction l as [|y l IH]; intros acc; simpl.
  - by rewrite app_nil_r.
  - unfold remove_duplicates_step at 2. destruct (sentence_in y acc).
    + etrans; [apply IH|]. apply sublist_app; [done|].
      by apply sublist_cons.
    + etrans; [apply IH|]. by rewrite <- app_assoc.
Qed.

Lemma remove_duplicates_loop_NoDup_id l acc :
  NoDup (acc ++ l) → foldl remove_duplicates_step acc l = acc ++ l.
Proof.
  revert acc. induction l as [|y l IH]; intros acc Hnd; simpl.
  - by rewrite app_nil_r.
  - unfold remove_duplicates_step at 2.
    assert (sentence_in y acc = false) as ->.
    { apply not_true_iff_false. rewrite sentence_in_spec.
      apply NoDup_app in Hnd as (_ & Hd & _). intros Hy.
      apply (Hd y Hy). set_solver. }
    rewrite IH; rewrite <- app_assoc; done.
Qed.

End duplicates.

(** [X1] [remove_duplicates] keeps the first occurrence of every sentence
    and drops the later ones, whatever the list: the result starts with
    the head of the list and continues with the result for the rest
    without the copies of the head.  The result holds no sentence twice,
    holds exactly the sentences of the input, keeps their order, and the
    other fields of the engine are untouched. *)
Theorem remove_duplicates_first_occurrences (st : AI) :
  (∀ x l, knowledge st = x :: l →
     knowledge (MinesweeperAI.remove_duplicates st)
     = x :: knowledge (MinesweeperAI.remove_duplicates
                         (set_knowledge (filter (λ y, y ≠ x) l) st)))
  ∧ (knowledge st = [] →
     knowledge (MinesweeperAI.remove_duplicates st) = [])
  ∧ NoDup (knowledge (MinesweeperAI.remove_duplicates st))
  ∧ (∀ s, s ∈ knowledge (MinesweeperAI.remove_duplicates st)
          ↔ s ∈ knowledge st)
  ∧ sublist (knowledge (MinesweeperAI.remove_duplicates st)) (knowledge st)
  ∧ safes (MinesweeperAI.remove_duplicates st) = safes st
  ∧ mines (MinesweeperAI.remove_duplicates st) = mines st
  ∧ moves_made (MinesweeperAI.remove_duplicates st) = moves_made st.
Proof.
  unfold MinesweeperAI.remove_duplicates, set_knowledge.
  cbn [knowledge safes mines moves_made].
  split; [|split; [|split; [|split; [|split; [|done]]]]].
  - intros x l ->. simpl.
    assert (MinesweeperAI.remove_duplicates_step [] x = [x]) as -> by done.
    apply remove_duplicates_loop_cons.
  - by intros ->.
  - apply remove_duplicates_loop_NoDup, NoDup_nil. done.
  - intros s. split.
    + intros [H|H]%remove_duplicates_loop_elem; [set_solver|done].
    + intros H. apply remove_duplicates_loop_keeps. by right.
  - apply (remove_duplicates_loop_sublist (knowledge st) []).
Qed.

(** [X2] On a knowledge list that holds no sentence twice
    [remove_duplicates] changes nothing; hence running it a second time
    never changes the result of the first run. *)
Theorem remove_duplicates_stable (st : AI) :
  (NoDup (knowledge st) → MinesweeperAI.remove_duplicates st = st)
  ∧ MinesweeperAI.remove_duplicates (MinesweeperAI.remove_duplicates st)
    = MinesweeperAI.remove_duplicates st.
Proof.
  assert (∀ a, NoDup (knowledge a) → MinesweeperAI.remove_duplicates a = a)
    as Hid.
  { intros a Hnd. unfold MinesweeperAI.remove_duplicates, set_knowledge.
    rewrite (remove_duplicates_loop_NoDup_id (knowledge a) []) by done.
    by destruct a. }
  split; [apply Hid|]. apply Hid.
  unfold MinesweeperAI.remove_duplicates, set_knowledge. cbn [knowledge].
  apply remove_duplicates_loop_NoDup, NoDup_nil. done.
Qed.

(** ** The neighbour loops *)

Section neighbour_loops.
Import MinesweeperAI.
Implicit Types (c x : cell) (st : AI) (l : list cell).

Lemma neighbours_cons h w c x l :
  x ∉ l →
  list_to_set (C := gset cell)
    (filter (λ y, in_bounds h w y = true ∧ y ≠ c) (x :: l))
  = (if decide (in_bounds h w x = true ∧ x ≠ c) then {[x]} else ∅)
    ∪ list_to_set (filter (λ y, in_bounds h w y = true ∧ y ≠ c) l)
  ∧ x ∉ list_to_set (C := gset cell)
          (filter (λ y, in_bounds h w y = true ∧ y ≠ c) l).
Proof.
  intros Hx. split.
  - destruct (decide (in_bounds h w x = true ∧ x ≠ c)).
    + rewrite filter_cons_True by done. done.
    + rewrite filter_cons_False by done. set_solver.
  - rewrite elem_of_list_to_set, list_elem_of_filter. tauto.
Qed.

Lemma nearby_mines_loop (g : Minesweeper.t) c l (m : Z) :
  NoDup l →
  foldl (Minesweeper.nearby_mines_step g c) m l
  = m + mines_in (Minesweeper.board g)
          (list_to_set
             (filter (λ y, in_bounds (Minesweeper.height g)
                             (Minesweeper.width g) y = true ∧ y ≠ c) l)).
Proof.
  intros Hnd. revert m.
  induction Hnd as [|x l Hx Hnd IH]; intros m.
  - rewrite filter_nil. cbn [foldl list_to_set]. rewrite mines_in_empty. lia.
  - cbn [foldl]. rewrite IH.
    destruct (neighbours_cons (Minesweeper.height g) (Minesweeper.width g)
                c x l Hx) as [-> Hnotin].
    unfold Minesweeper.nearby_mines_step.
    destruct (decide (x = c)) as [->|Hne].
    + rewrite decide_False by tauto.
      rewrite (left_id_L ∅ (∪)). done.
    + destruct (in_bounds (Minesweeper.height g) (Minesweeper.width g) x)
        eqn:Hb.
      * rewrite decide_True by done.
        rewrite mines_in_union by set_solver.
        rewrite mines_in_singleton.
        destruct (Minesweeper.board g x); lia.
      * rewrite decide_False by (intros [? ?]; done).
        rewrite (left_id_L ∅ (∪)). done.
Qed.

Lemma neighbours_size h w c : (size (neighbours h w c) ≤ 8)%nat.
Proof.
  assert (neighbours h w c ⊆ list_to_set (around c) ∖ {[c]}) as Hsub.
  { unfold neighbours. intros x.
    rewrite elem_of_list_to_set, list_elem_of_filter.
    intros [[_ Hne] Hin]. apply elem_of_difference. split.
    - by apply elem_of_list_to_set.
    - by intros ->%elem_of_singleton. }
  apply subseteq_size in Hsub.
  rewrite size_difference in Hsub.
  - rewrite size_list_to_set in Hsub by apply around_NoDup.
    rewrite size_singleton in Hsub.
    assert (length (around c) = 9%nat) as Hlen by done. lia.
  - apply singleton_subseteq_l, elem_of_list_to_set.
    destruct c as [i j]. unfold around, range3. simpl.
    replace (i, j) with (i, j) by done. set_solver.
Qed.

Lemma neighbours_spec h w c x :
  x ∈ neighbours h w c
  ↔ in_bounds h w x = true ∧ x ≠ c
    ∧ c.1 - 1 ≤ x.1 ≤ c.1 + 1 ∧ c.2 - 1 ≤ x.2 ≤ c.2 + 1.
Proof.
  unfold neighbours. rewrite elem_of_list_to_set, list_elem_of_filter.
  destruct c as [i j], x as [r k]. unfold around, range3. simpl.
  rewrite !elem_of_cons, elem_of_nil. split.
  - intros [[Hb Hne] H]. split; [done|]. split; [done|].
    repeat (destruct H as [H|H]; [inversion H; lia|]). done.
  - intros (Hb & Hne & Hr & Hk). split; [done|].
    assert (r = i - 1 ∨ r = i ∨ r = i + 1) as Hr' by lia.
    assert (k = j - 1 ∨ k = j ∨ k = j + 1) as Hk' by lia.
    destruct Hr' as [Hr1|[Hr1|Hr1]], Hk' as [Hk1|[Hk1|Hk1]]; subst r k;
      tauto.
Qed.

Lemma neighbour_loop_closed st c l (cs : list cell) (n : Z) :
  NoDup l →
  let F := list_to_set (C := gset cell)
             (filter (λ y, in_bounds (height st) (width st) y = true
                           ∧ y ≠ c) l) in
  list_to_set (C := gset cell) (foldl (neighbour_step st c) (cs, n) l).1
  = list_to_set cs ∪ F ∖ (mines st ∪ safes st)
  ∧ (foldl (neighbour_step st c) (cs, n) l).2
    = n - Z.of_nat (size (F ∩ mines st)).
Proof.
  intros Hnd. revert cs n.
  induction Hnd as [|x l Hx Hnd IH]; intros cs n; cbv zeta.
  - rewrite filter_nil. cbn [foldl list_to_set fst snd].
    split; [set_solver|].
    assert ((∅ : gset cell) ∩ mines st = ∅) as -> by set_solver.
    rewrite size_empty. lia.
  - cbn [foldl].
    destruct (neighbours_cons (height st) (width st) c x l Hx)
      as [-> Hnotin].
    set (F := list_to_set (filter _ l)) in *.
    unfold neighbour_step at 2 4.
    destruct (in_bounds (height st) (width st) x) eqn:Hb.
    + destruct (decide (x = c)) as [->|Hne].
      * rewrite decide_False by tauto.
        rewrite (left_id_L ∅ (∪)). apply IH.
      * rewrite (decide_True (P := true = true ∧ x ≠ c)) by done.
        cbn [fst snd].
        destruct (decide (x ∈ mines st)) as [Hm|Hm].
        -- rewrite decide_False by tauto.
           destruct (IH cs (n - 1)) as [-> ->]. fold F.
           split; [set_solver|].
           assert (({[x]} ∪ F) ∩ mines st = {[x]} ∪ F ∩ mines st) as ->
             by set_solver.
           rewrite (size_union {[x]} (F ∩ mines st)) by set_solver.
           rewrite size_singleton. lia.
        -- assert (({[x]} ∪ F) ∩ mines st = F ∩ mines st) as ->
             by set_solver.
           destruct (decide (x ∈ safes st)) as [Hs|Hs].
           ++ rewrite decide_False by tauto.
              destruct (IH cs n) as [-> ->]. fold F.
              split; [set_solver|done].
           ++ rewrite decide_True by tauto.
              destruct (IH (cs ++ [x]) n) as [-> ->]. fold F.
              split; [|done].
              rewrite (leibniz_equiv _ _ (list_to_set_snoc cs x)).
              set_solver.
    + rewrite decide_False by (intros [? ?]; done).
      rewrite (left_id_L ∅ (∪)). apply IH.
Qed.

End neighbour_loops.

(** [X3] [nearby_mines] returns the number of mines among the cells of
    the board that are within one row and one column of the given cell,
    the cell itself excluded: a number between 0 and 8 that depends
    neither on whether the cell itself is a mine nor on anything outside
    the board. *)
Theorem nearby_mines_counts_neighbours (g : Minesweeper.t) (c : cell) :
  Minesweeper.nearby_mines g c
  = mines_in (Minesweeper.board g)
      (neighbours (Minesweeper.height g) (Minesweeper.width g) c)
  ∧ 0 ≤ Minesweeper.nearby_mines g c ≤ 8
  ∧ (∀ x, x ∈ neighbours (Minesweeper.height g) (Minesweeper.width g) c
          ↔ in_bounds (Minesweeper.height g) (Minesweeper.width g) x = true
            ∧ x ≠ c
            ∧ c.1 - 1 ≤ x.1 ≤ c.1 + 1 ∧ c.2 - 1 ≤ x.2 ≤ c.2 + 1)
  ∧ (∀ g' : Minesweeper.t,
       Minesweeper.height g' = Minesweeper.height g →
       Minesweeper.width g' = Minesweeper.width g →
       (∀ x, x ≠ c →
             in_bounds (Minesweeper.height g) (Minesweeper.width g) x = true →
             Minesweeper.board g' x = Minesweeper.board g x) →
       Minesweeper.nearby_mines g' c = Minesweeper.nearby_mines g c).
Proof.
  assert (∀ g0, Minesweeper.nearby_mines g0 c
          = mines_in (Minesweeper.board g0)
              (neighbours (Minesweeper.height g0) (Minesweeper.width g0) c))
    as Hclosed.
  { intros g0. unfold Minesweeper.nearby_mines, neighbours.
    rewrite nearby_mines_loop by apply around_NoDup. lia. }
  split; [apply Hclosed|]. split; [|split].
  - rewrite Hclosed.
    pose proof (mines_in_bounds (Minesweeper.board g)
                  (neighbours (Minesweeper.height g)
                     (Minesweeper.width g) c)) as H.
    pose proof (neighbours_size (Minesweeper.height g)
                  (Minesweeper.width g) c). lia.
  - apply neighbours_spec.
  - intros g' Hh Hw Hb. rewrite !Hclosed, Hh, Hw. unfold mines_in.
    f_equal. f_equal. apply set_eq. intros x. rewrite !elem_of_filter.
    split; intros [H1 H2]; (split; [|done]);
      apply neighbours_spec in H2 as H3; destruct H3 as (Hin & Hne & _);
      [rewrite <- Hb|rewrite Hb]; done.
Qed.


Lemma neighbour_loop_sentence (st : AI) (c : cell) (l : list cell) (n : Z) :
  NoDup l →
  mkSentence
    (list_to_set (foldl (MinesweeperAI.neighbour_step st c) ([], n) l).1)
    (foldl (MinesweeperAI.neighbour_step st c) ([], n) l).2
  = mkSentence
      (list_to_set
         (filter (λ y, in_bounds (height st) (width st) y = true ∧ y ≠ c) l)
       ∖ (mines st ∪ safes st))
      (n - Z.of_nat
             (size (list_to_set (C := gset cell)
                      (filter (λ y, in_bounds (height st) (width st) y = true
                                    ∧ y ≠ c) l)
                    ∩ mines st))).
Proof.
  intros Hnd.
  destruct (neighbour_loop_closed st c l [] n Hnd) as [H1 H2].
  cbv zeta in H1, H2. rewrite H1, H2. f_equal. set_solver.
Qed.

Lemma new_sentence_of_closed (c : cell) (n : Z) (st : AI) :
  MinesweeperAI.new_sentence_of st c n
  = mkSentence (neighbours (height st) (width st) c ∖ (mines st ∪ safes st))
      (n - Z.of_nat (size (neighbours (height st) (width st) c ∩ mines st))).
Proof. apply neighbour_loop_sentence, around_NoDup. Qed.

(** [X4] The sentence that [add_knowledge] appends for the observation
    [(c, n)] has as cells the cells of the board around [c] that are
    neither in [mines] nor in [safes] (at most 8, never [c] itself), and
    as count [n] minus the number of known mines around [c]; nothing
    keeps that count from being negative. *)
Theorem new_sentence_closed_form (c : cell) (n : Z) (st : AI) :
  let N := neighbours (height st) (width st) c in
  last (knowledge (MinesweeperAI.record_observation c n st))
  = Some (mkSentence (N ∖ (mines st ∪ safes st))
                     (n - Z.of_nat (size (N ∩ mines st))))
  ∧ (size (N ∖ (mines st ∪ safes st)) ≤ 8)%nat
  ∧ (c ∉ N ∖ (mines st ∪ safes st))
  ∧ n - 8 ≤ n - Z.of_nat (size (N ∩ mines st)) ≤ n.
Proof.
  intros N.
  pose proof (neighbours_size (height st) (width st) c) as Hsize.
  fold N in Hsize.
  assert (c ∉ N) as Hc.
  { intros H. apply neighbours_spec in H. tauto. }
  split; [|split; [|split]].
  - unfold MinesweeperAI.record_observation, set_knowledge.
    cbn [knowledge]. rewrite last_snoc. f_equal.
    rewrite new_sentence_of_closed.
    cbn [height width mines safes MinesweeperAI.mark_safe]. fold N.
    f_equal. set_solver.
  - etrans; [|exact Hsize]. apply subseteq_size. set_solver.
  - set_solver.
  - assert (size (N ∩ mines st) ≤ size N)%nat
      by (apply subseteq_size; set_solver). lia.
Qed.

(** ** [MinesweeperAI.mark_mine] and [MinesweeperAI.mark_safe] *)

Section marks_again.
Import MinesweeperAI.
Implicit Types (c x : cell) (st : AI) (s : Sentence).

Lemma sentence_mark_mine_twice c s :
  Sentence.mark_mine c (Sentence.mark_mine c s) = Sentence.mark_mine c s.
Proof.
  apply sentence_ext.
  - rewrite !mark_mine_cells. set_solver.
  - rewrite mark_mine_count, mark_mine_cells.
    rewrite decide_False by set_solver. done.
Qed.

Lemma sentence_mark_safe_twice c s :
  Sentence.mark_safe c (Sentence.mark_safe c s) = Sentence.mark_safe c s.
Proof.
  apply sentence_ext; [|done]. rewrite !mark_safe_cells. set_solver.
Qed.

Lemma sentence_mark_mine_after_safe c s :
  Sentence.mark_mine c (Sentence.mark_safe c s) = Sentence.mark_safe c s.
Proof.
  apply sentence_ext.
  - rewrite mark_mine_cells, !mark_safe_cells. set_solver.
  - rewrite mark_mine_count, mark_safe_cells.
    rewrite decide_False by set_solver. done.
Qed.

Lemma sentence_mark_commute c1 c2 s :
  c1 ≠ c2 →
  Sentence.mark_safe c1 (Sentence.mark_mine c2 s)
  = Sentence.mark_mine c2 (Sentence.mark_safe c1 s).
Proof.
  intros Hne. apply sentence_ext.
  - rewrite mark_safe_cells, !mark_mine_cells, mark_safe_cells. set_solver.
  - rewrite mark_safe_count, !mark_mine_count, mark_safe_cells,
      mark_safe_count.
    destruct (decide (c2 ∈ cells s)), (decide (c2 ∈ cells s ∖ {[c1]}));
      set_solver.
Qed.

Lemma sentence_mark_mine_commute c1 c2 s :
  Sentence.mark_mine c1 (Sentence.mark_mine c2 s)
  = Sentence.mark_mine c2 (Sentence.mark_mine c1 s).
Proof.
  apply sentence_ext.
  - rewrite !mark_mine_cells. set_solver.
  - rewrite !mark_mine_count, !mark_mine_cells.
    destruct (decide (c1 = c2)) as [->|Hne]; [done|].
    destruct (decide (c1 ∈ cells s)), (decide (c2 ∈ cells s)),
      (decide (c1 ∈ cells s ∖ {[c2]})), (decide (c2 ∈ cells s ∖ {[c1]}));
      try lia; set_solver.
Qed.

Lemma fmap_knowledge_ext (f h : Sentence → Sentence) (k : list Sentence) :
  (∀ s, f s = h s) → f <$> k = h <$> k.
Proof. intros H. apply list_fmap_ext. intros i s _. apply H. Qed.

End marks_again.

(** [X5] After [mark_mine(c)] no stored sentence mentions [c], [c] is in
    [mines], and the knowledge list has as many sentences as before; the
    same holds for [mark_safe(c)] and [safes].  Neither method looks at
    the other set: marking as a mine a cell that is already in [safes]
    leaves it in both sets. *)
Theorem mark_removes_cell_everywhere (c : cell) (st : AI) :
  (∀ s, s ∈ knowledge (MinesweeperAI.mark_mine c st) → c ∉ cells s)
  ∧ (∀ s, s ∈ knowledge (MinesweeperAI.mark_safe c st) → c ∉ cells s)
  ∧ length (knowledge (MinesweeperAI.mark_mine c st)) = length (knowledge st)
  ∧ length (knowledge (MinesweeperAI.mark_safe c st)) = length (knowledge st)
  ∧ mines (MinesweeperAI.mark_mine c st) = {[c]} ∪ mines st
  ∧ safes (MinesweeperAI.mark_safe c st) = {[c]} ∪ safes st
  ∧ safes (MinesweeperAI.mark_mine c st) = safes st
  ∧ mines (MinesweeperAI.mark_safe c st) = mines st
  ∧ (c ∈ safes st →
     c ∈ safes (MinesweeperAI.mark_mine c st)
         ∩ mines (MinesweeperAI.mark_mine c st)).
Proof.
  unfold MinesweeperAI.mark_mine, MinesweeperAI.mark_safe.
  cbn [knowledge mines safes].
  split; [|split; [|split; [|split; [|split; [|split; [|split; [|split]]]]]]];
    try done.
  - intros s (s0 & -> & _)%list_elem_of_fmap.
    rewrite mark_mine_cells. set_solver.
  - intros s (s0 & -> & _)%list_elem_of_fmap.
    rewrite mark_safe_cells. set_solver.
  - apply length_fmap.
  - apply length_fmap.
  - set_solver.
Qed.

(** [X6] The loops [for mine in diff: self.mark_mine(mine)] and
    [for safe in diff: self.mark_safe(safe)] give the same state in
    whatever order the set is iterated: every duplicate-free enumeration
    of the set leads to the state in which the set is added to [mines]
    (or [safes]) and removed from every sentence, the count of a sentence
    being lowered, for mines, by the number of its cells in the set. *)
Theorem mark_loops_order_independent (d : gset cell) (l : list cell) (st : AI) :
  NoDup l → list_to_set l = d →
  foldl (λ a c, MinesweeperAI.mark_mine c a) st l
  = MinesweeperAI.mark_mines d st
  ∧ foldl (λ a c, MinesweeperAI.mark_safe c a) st l
    = MinesweeperAI.mark_safes d st
  ∧ MinesweeperAI.mark_mines d st
    = mkAI (height st) (width st) (moves_made st) (d ∪ mines st) (safes st)
           (strip_mines d <$> knowledge st)
  ∧ MinesweeperAI.mark_safes d st
    = mkAI (height st) (width st) (moves_made st) (mines st) (d ∪ safes st)
           (strip_safes d <$> knowledge st).
Proof.
  intros Hnd <-.
  rewrite mark_mines_eq, mark_safes_eq, mark_mines_list, mark_safes_list
    by done.
  done.
Qed.

(** [X7] Marking is idempotent, and marks of different cells commute.
    For one and the same cell the order matters only for the count:
    [mark_mine] after [mark_safe] changes no sentence, because the cell
    is gone when the count would be lowered. *)
Theorem marks_idempotent_and_commute (c1 c2 : cell) (st : AI) :
  MinesweeperAI.mark_mine c1 (MinesweeperAI.mark_mine c1 st)
  = MinesweeperAI.mark_mine c1 st
  ∧ MinesweeperAI.mark_safe c1 (MinesweeperAI.mark_safe c1 st)
    = MinesweeperAI.mark_safe c1 st
  ∧ MinesweeperAI.mark_mine c1 (MinesweeperAI.mark_mine c2 st)
    = MinesweeperAI.mark_mine c2 (MinesweeperAI.mark_mine c1 st)
  ∧ knowledge (MinesweeperAI.mark_mine c1 (MinesweeperAI.mark_safe c1 st))
    = knowledge (MinesweeperAI.mark_safe c1 st)
  ∧ (c1 ≠ c2 →
     MinesweeperAI.mark_safe c1 (MinesweeperAI.mark_mine c2 st)
     = MinesweeperAI.mark_mine c2 (MinesweeperAI.mark_safe c1 st)).
Proof.
  unfold MinesweeperAI.mark_mine, MinesweeperAI.mark_safe.
  cbn [height width moves_made knowledge mines safes].
  split; [|split; [|split; [|split]]].
  - f_equal; [set_solver|]. rewrite <- list_fmap_compose.
    apply fmap_knowledge_ext. intros s. apply sentence_mark_mine_twice.
  - f_equal; [set_solver|]. rewrite <- list_fmap_compose.
    apply fmap_knowledge_ext. intros s. apply sentence_mark_safe_twice.
  - f_equal; [set_solver|]. rewrite <- !list_fmap_compose.
    apply fmap_knowledge_ext. intros s. apply sentence_mark_mine_commute.
  - rewrite <- list_fmap_compose.
    apply fmap_knowledge_ext. intros s. apply sentence_mark_mine_after_safe.
  - intros Hne. f_equal. rewrite <- !list_fmap_compose.
    apply fmap_knowledge_ext. intros s. by apply sentence_mark_commute.
Qed.

(** ** The frame of [add_knowledge] and the harvest *)

Section frame_and_harvest.
Import MinesweeperAI.
Implicit Types (c x : cell) (st : AI) (s : Sentence).

Lemma same_frame_refl st : same_frame st st.
Proof. by repeat split. Qed.

Lemma same_frame_trans st1 st2 st3 :
  same_frame st1 st2 → same_frame st2 st3 → same_frame st1 st3.
Proof. unfold same_frame. intros (?&?&?) (?&?&?). repeat split; congruence. Qed.

Lemma same_frame_mark_safes d st : same_frame st (mark_safes d st).
Proof. rewrite mark_safes_eq. by repeat split. Qed.

Lemma same_frame_mark_mines d st : same_frame st (mark_mines d st).
Proof. rewrite mark_mines_eq. by repeat split. Qed.

Lemma stripped_refl (k : list Sentence) : stripped k k.
Proof. apply Forall2_same_length_lookup. split; [done|]. intros; simplify_eq. done. Qed.

Lemma stripped_trans (k1 k2 k3 : list Sentence) :
  stripped k1 k2 → stripped k2 k3 → stripped k1 k3.
Proof.
  unfold stripped. intros H1 H2.
  eapply Forall2_trans; [|exact H1|exact H2].
  simpl. intros s1 s2 s3 ? ?. set_solver.
Qed.

Lemma stripped_mark_safes d st :
  stripped (knowledge st) (knowledge (mark_safes d st)).
Proof.
  rewrite mark_safes_eq. cbn [knowledge]. unfold stripped.
  apply Forall2_fmap_r, Forall2_same_length_lookup. split; [done|].
  intros i s s' H1 H2. simplify_eq. unfold strip_safes; simpl. set_solver.
Qed.

Lemma stripped_mark_mines d st :
  stripped (knowledge st) (knowledge (mark_mines d st)).
Proof.
  rewrite mark_mines_eq. cbn [knowledge]. unfold stripped.
  apply Forall2_fmap_r, Forall2_same_length_lookup. split; [done|].
  intros i s s' H1 H2. simplify_eq. unfold strip_mines; simpl. set_solver.
Qed.

Lemma step_ok_refl st : step_ok st st.
Proof. split; [apply same_frame_refl|apply stripped_refl]. Qed.

Lemma step_ok_trans st1 st2 st3 :
  step_ok st1 st2 → step_ok st2 st3 → step_ok st1 st3.
Proof.
  intros [? ?] [? ?].
  split; [by eapply same_frame_trans|by eapply stripped_trans].
Qed.

Lemma step_ok_mark_safes d st : step_ok st (mark_safes d st).
Proof. split; [apply same_frame_mark_safes|apply stripped_mark_safes]. Qed.

Lemma step_ok_mark_mines d st : step_ok st (mark_mines d st).
Proof. split; [apply same_frame_mark_mines|apply stripped_mark_mines]. Qed.

Lemma step_ok_subset_rule small big (acc : AI * list Sentence) :
  step_ok acc.1 (subset_rule small big acc).1.
Proof.
  unfold subset_rule.
  destruct (decide (count small = count big)); simpl;
    [apply step_ok_mark_safes|].
  destruct (decide (Z.of_nat (size (cells big ∖ cells small))
                    = count big - count small)); simpl;
    [apply step_ok_mark_mines|apply step_ok_refl].
Qed.

Lemma step_ok_compare_step (acc : AI * list Sentence) (i : nat) :
  step_ok acc.1 (compare_step acc i).1.
Proof.
  unfold compare_step.
  destruct (knowledge acc.1 !! i) as [sentence|]; [|apply step_ok_refl].
  destruct (last (knowledge acc.1)) as [new_sentence|]; [|apply step_ok_refl].
  destruct (Sentence.eqb sentence new_sentence); [apply step_ok_refl|].
  destruct (decide (cells sentence ⊆ cells new_sentence));
    [apply step_ok_subset_rule|].
  destruct (decide (cells new_sentence ⊆ cells sentence));
    [apply step_ok_subset_rule|apply step_ok_refl].
Qed.

Lemma step_ok_compare_all st : step_ok st (compare_all st).1.
Proof.
  unfold compare_all.
  apply (foldl_invariant (λ acc, step_ok st acc.1) (λ _, True)).
  - intros acc i H _. eapply step_ok_trans; [exact H|].
    apply step_ok_compare_step.
  - by apply Forall_forall.
  - apply step_ok_refl.
Qed.

Lemma step_ok_harvest_step (acc : AI * list nat) (i : nat) :
  step_ok acc.1 (harvest_step acc i).1.
Proof.
  unfold harvest_step.
  destruct (knowledge acc.1 !! i) as [s|]; [|apply step_ok_refl].
  cbn [fst snd].
  eapply step_ok_trans with
    (st2 := if truthy (Sentence.known_safes s).1
            then mark_safes (default ∅ (Sentence.known_safes s).1) acc.1
            else acc.1).
  - destruct (truthy _); [apply step_ok_mark_safes|apply step_ok_refl].
  - destruct (truthy (Sentence.known_mines s).1);
      [apply step_ok_mark_mines|apply step_ok_refl].
Qed.

Lemma harvest_step_kept_sublist (acc : AI * list nat) (i : nat) :
  sublist acc.2 (seq 0 i) → sublist (harvest_step acc i).2 (seq 0 i ++ [i]).
Proof.
  intros H. unfold harvest_step.
  destruct (knowledge acc.1 !! i) as [s|];
    [|by apply sublist_inserts_r].
  cbn [fst snd]. destruct (negb _).
  - by apply sublist_app.
  - by apply sublist_inserts_r.
Qed.

Lemma harvest_loop_ok st (n : nat) :
  step_ok st (foldl harvest_step (st, []) (seq 0 n)).1
  ∧ sublist (foldl harvest_step (st, []) (seq 0 n)).2 (seq 0 n).
Proof.
  induction n as [|n [IH1 IH2]].
  - simpl. split; [apply step_ok_refl|done].
  - rewrite seq_S, foldl_snoc. cbn [Nat.add]. split.
    + eapply step_ok_trans; [exact IH1|apply step_ok_harvest_step].
    + by apply harvest_step_kept_sublist.
Qed.

Lemma omap_lookup_seq (k pre : list Sentence) :
  omap (λ i, (pre ++ k) !! i) (seq (length pre) (length k)) = k.
Proof.
  revert pre. induction k as [|x k IH]; intros pre; [done|].
  simpl. rewrite list_lookup_middle by done.
  f_equal. specialize (IH (pre ++ [x])).
  rewrite length_app, <- app_assoc in IH. simpl in IH.
  replace (length pre + 1)%nat with (S (length pre)) in IH by lia.
  exact IH.
Qed.

Lemma omap_sublist {A B} (f : A → option B) (l1 l2 : list A) :
  sublist l1 l2 → sublist (omap f l1) (omap f l2).
Proof.
  induction 1 as [|x l1 l2 H IH|x l1 l2 H IH]; simpl.
  - done.
  - destruct (f x); [by apply sublist_skip|done].
  - destruct (f x); [by apply sublist_cons|done].
Qed.

Lemma harvest_loop_settled st (n : nat) :
  Forall settled (knowledge st) → (n ≤ length (knowledge st))%nat →
  foldl harvest_step (st, []) (seq 0 n) = (st, seq 0 n).
Proof.
  intros Hall. induction n as [|n IH]; intros Hn; [done|].
  rewrite seq_S, foldl_snoc, IH by lia. cbn [Nat.add].
  destruct (lookup_lt_is_Some_2 (knowledge st) n) as [s Hs]; [lia|].
  unfold harvest_step. cbn [fst snd]. rewrite Hs.
  rewrite Forall_forall in Hall.
  destruct (Hall s) as [-> ->]; [by eapply list_elem_of_lookup_2|].
  done.
Qed.

(** The first sentence that is not settled is dropped by the harvest. *)
Lemma harvest_loop_drops st (i : nat) s (n : nat) :
  (∀ j s', (j < i)%nat → knowledge st !! j = Some s' → settled s') →
  knowledge st !! i = Some s → ¬ settled s → (i < n)%nat →
  i ∉ (foldl harvest_step (st, []) (seq 0 n)).2.
Proof.
  intros Hbefore Hi Hns.
  assert (foldl harvest_step (st, []) (seq 0 i) = (st, seq 0 i)) as Hpre.
  { assert (i ≤ length (knowledge st))%nat as Hlen
      by (apply lookup_lt_Some in Hi; lia).
    clear Hi Hns. induction i as [|i IH]; [done|].
    rewrite seq_S, foldl_snoc, IH;
      [|intros j s' Hj Hl; apply (Hbefore j s'); [lia|done]|lia].
    cbn [Nat.add]. unfold harvest_step. cbn [fst snd].
    destruct (lookup_lt_is_Some_2 (knowledge st) i) as [s' Hs']; [lia|].
    rewrite Hs'.
    destruct (Hbefore i s') as [-> ->]; [lia|done|done]. }
  induction n as [|n IH]; intros Hlt; [lia|].
  rewrite seq_S, foldl_snoc. cbn [Nat.add].
  destruct (decide (i = n)) as [<-|Hne].
  - rewrite Hpre. unfold harvest_step. cbn [fst snd]. rewrite Hi.
    assert (truthy (Sentence.known_safes s).1
            || truthy (Sentence.known_mines s).1 = true) as ->.
    { unfold settled in Hns.
      destruct (truthy (Sentence.known_safes s).1),
               (truthy (Sentence.known_mines s).1); try done.
      exfalso. by apply Hns. }
    simpl. intros H%elem_of_seq. lia.
  - specialize (IH ltac:(lia)).
    set (acc := foldl harvest_step (st, []) (seq 0 n)) in *.
    unfold harvest_step.
    destruct (knowledge acc.1 !! n) as [sn|]; [|done]. cbn [fst snd].
    destruct (negb _); [|done].
    intros [H|H%list_elem_of_singleton]%elem_of_app; [done|lia].
Qed.

End frame_and_harvest.

Section harvest_fixed_point.
Import MinesweeperAI.
Implicit Types (c x : cell) (st : AI) (s : Sentence).

Lemma settled_dec s : Decision (settled s).
Proof. unfold settled. apply _. Defined.

Lemma first_unsettled (k : list Sentence) :
  ¬ Forall settled k →
  ∃ i s, k !! i = Some s ∧ ¬ settled s
         ∧ ∀ j s', (j < i)%nat → k !! j = Some s' → settled s'.
Proof.
  induction k as [|x k IH]; intros Hn.
  - exfalso. apply Hn. constructor.
  - destruct (settled_dec x) as [Hx|Hx].
    + destruct IH as (i & s & Hi & Hs & Hbefore).
      { intros Hk. apply Hn. by constructor. }
      exists (S i), s. split; [done|]. split; [done|].
      intros [|j] s' Hj Hl; simpl in Hl; [by simplify_eq|].
      apply (Hbefore j s'); [lia|done].
    + exists 0%nat, x. split; [done|]. split; [done|].
      intros j s' Hj. exfalso. lia.
Qed.

Lemma omap_length_le {A B} (f : A → option B) (l : list A) :
  (length (omap f l) ≤ length l)%nat.
Proof.
  induction l as [|x l IH]; [simpl; lia|].
  change (omap f (x :: l))
    with (match f x with Some y => y :: omap f l | None => omap f l end).
  destruct (f x); simpl; lia.
Qed.

Lemma harvest_result_sublist st :
  sublist (knowledge (add_known_safes_and_mines st))
    (knowledge (foldl harvest_step (st, [])
                  (seq 0 (length (knowledge st)))).1).
Proof.
  unfold add_known_safes_and_mines, set_knowledge. cbn [knowledge].
  destruct (harvest_loop_ok st (length (knowledge st))) as [[_ Hs] Hk].
  set (r := foldl harvest_step (st, []) (seq 0 (length (knowledge st))))
    in *.
  pose proof (omap_lookup_seq (knowledge r.1) []) as Hall.
  simpl in Hall. rewrite <- (Forall2_length _ _ _ Hs) in Hall.
  pose proof (omap_sublist (λ i, knowledge r.1 !! i) _ _ Hk) as Hsub.
  rewrite Hall in Hsub. exact Hsub.
Qed.

End harvest_fixed_point.

(** [X8] [add_knowledge(c, n)] adds exactly the observed cell to
    [moves_made], leaves the dimensions alone, and returns with [c] in
    [safes]; whatever was in [safes] or [mines] before is still there. *)
Theorem add_knowledge_frame (c : cell) (n : Z) (st : AI) :
  moves_made (MinesweeperAI.add_knowledge c n st) = {[c]} ∪ moves_made st
  ∧ height (MinesweeperAI.add_knowledge c n st) = height st
  ∧ width (MinesweeperAI.add_knowledge c n st) = width st
  ∧ c ∈ safes (MinesweeperAI.add_knowledge c n st)
  ∧ safes st ⊆ safes (MinesweeperAI.add_knowledge c n st)
  ∧ mines st ⊆ mines (MinesweeperAI.add_knowledge c n st).
Proof.
  pose proof (grows_add_knowledge c n st) as [Hs Hm].
  assert (same_frame (MinesweeperAI.record_observation c n st)
            (MinesweeperAI.add_knowledge c n st)) as (Hh & Hw & Hmm).
  { unfold MinesweeperAI.add_knowledge.
    destruct (step_ok_compare_all (MinesweeperAI.record_observation c n st))
      as [H1 _].
    destruct (harvest_loop_ok
                (MinesweeperAI.remove_duplicates
                   (MinesweeperAI.extend_knowledge
                      (MinesweeperAI.compare_all
                         (MinesweeperAI.record_observation c n st))))
                (length (knowledge
                   (MinesweeperAI.remove_duplicates
                      (MinesweeperAI.extend_knowledge
                         (MinesweeperAI.compare_all
                            (MinesweeperAI.record_observation c n st)))))))
      as [[H2 _] _].
    eapply same_frame_trans; [exact H1|]. exact H2. }
  split; [exact Hmm|]. split; [exact Hh|]. split; [exact Hw|].
  split; [|done].
  assert (c ∈ safes (MinesweeperAI.record_observation c n st)) as Hc
    by (unfold MinesweeperAI.record_observation; simpl; set_solver).
  unfold MinesweeperAI.add_knowledge.
  apply grows_add_known_safes_and_mines.
  change (c ∈ safes (MinesweeperAI.compare_all
                       (MinesweeperAI.record_observation c n st)).1).
  by apply grows_compare_all.
Qed.

(** [X9] [add_known_safes_and_mines] leaves the engine exactly as it is
    if and only if no stored sentence yields a non-empty set of known
    safes or of known mines. *)
Theorem harvest_fixed_point_iff (st : AI) :
  MinesweeperAI.add_known_safes_and_mines st = st
  ↔ Forall settled (knowledge st).
Proof.
  split.
  - intros Heq.
    destruct (decide (Forall settled (knowledge st))) as [|Hn]; [done|].
    exfalso.
    destruct (first_unsettled _ Hn) as (i & s & Hi & Hs & Hbefore).
    pose proof (lookup_lt_Some _ _ _ Hi) as Hlt.
    pose proof (harvest_loop_drops st i s (length (knowledge st))
                  Hbefore Hi Hs Hlt) as Hdrop.
    destruct (harvest_loop_ok st (length (knowledge st))) as [_ Hk].
    assert (length (knowledge (MinesweeperAI.add_known_safes_and_mines st))
            < length (knowledge st))%nat as Hshort.
    { unfold MinesweeperAI.add_known_safes_and_mines, set_knowledge.
      cbn [knowledge].
      set (r := foldl MinesweeperAI.harvest_step (st, [])
                  (seq 0 (length (knowledge st)))) in *.
      eapply Nat.le_lt_trans; [apply omap_length_le|].
      destruct (decide (length r.2 < length (knowledge st))%nat)
        as [|Hge]; [done|].
      exfalso. apply Hdrop.
      assert (r.2 ≡ₚ seq 0 (length (knowledge st))) as Hperm.
      { apply submseteq_length_Permutation;
          [by apply sublist_submseteq|]. rewrite length_seq. lia. }
      rewrite Hperm. apply elem_of_seq. lia. }
    rewrite Heq in Hshort. lia.
  - intros Hall. unfold MinesweeperAI.add_known_safes_and_mines.
    rewrite harvest_loop_settled by done. cbn [fst snd].
    pose proof (omap_lookup_seq (knowledge st) []) as H. simpl in H.
    unfold set_knowledge. rewrite H. by destruct st.
Qed.

(** [X10] The harvest never adds anything to the knowledge list: what it
    returns is a selection, in the original order, of the stored
    sentences with cells removed, so the list does not get longer; it
    touches neither [moves_made] nor the dimensions, and [safes] and
    [mines] only grow. *)
Theorem harvest_only_shrinks (st : AI) :
  (∃ k', stripped (knowledge st) k'
         ∧ sublist (knowledge (MinesweeperAI.add_known_safes_and_mines st))
             k')
  ∧ (length (knowledge (MinesweeperAI.add_known_safes_and_mines st))
     ≤ length (knowledge st))%nat
  ∧ same_frame st (MinesweeperAI.add_known_safes_and_mines st)
  ∧ grows st (MinesweeperAI.add_known_safes_and_mines st).
Proof.
  destruct (harvest_loop_ok st (length (knowledge st))) as [[Hf Hs] Hk].
  pose proof (harvest_result_sublist st) as Hsub.
  split; [|split; [|split]].
  - eexists. split; [exact Hs|exact Hsub].
  - apply sublist_length in Hsub.
    rewrite <- (Forall2_length _ _ _ Hs) in Hsub. exact Hsub.
  - exact Hf.
  - apply grows_add_known_safes_and_mines.
Qed.

(** ** Consequences of soundness for the player *)

Lemma move_selection_exhaustion_safe (choice : nat) (st : AI) (c : cell) :
  (MinesweeperAI.make_safe_move choice st).1 = Some c →
  c ∈ safes st ∧ c ∉ moves_made st.
Proof.
  unfold MinesweeperAI.make_safe_move.
  destruct (bool_decide (safes st ∖ moves_made st = ∅)) eqn:He; [done|].
  apply bool_decide_eq_false in He.
  destruct (set_pop_elem choice _ He) as (x & Hx & Hin).
  simpl. rewrite Hx. intros [= <-]. set_solver.
Qed.



(** [X11] Under the documented preconditions a move returned by
    [make_safe_move] is never a mine of the board and has not been played
    before.  (The cell need not lie on the board if the driver observed a
    cell outside it; the engine does not check that.) *)
Theorem safe_move_is_safe (g : Minesweeper.t) (st : AI) (choice : nat)
  (c : cell) :
  reachable g st →
  (MinesweeperAI.make_safe_move choice st).1 = Some c →
  Minesweeper.is_mine g c = false ∧ (c ∉ moves_made st) ∧ (c ∉ mines st).
Proof.
  intros Hreach Hmove.
  pose proof (sound_reachable g st Hreach) as Hsound.
  pose proof (sound_disjoint g st Hsound) as Hdisj.
  destruct Hsound as (_ & _ & Hs & _).
  destruct (move_selection_exhaustion_safe choice st c Hmove) as [Hin Hnot].
  split; [by apply Hs|]. split; [done|]. set_solver.
Qed.

(** [X12] Under the documented preconditions every sentence in the
    knowledge list is true of the board at all times: its count is the
    number of its cells that are mines, so [0 <= count <= |cells|];
    every cell in [mines] is a mine, no cell in [safes] is one, and the
    dimensions are those of the game. *)
Theorem reachable_knowledge_is_true (g : Minesweeper.t) (st : AI) :
  reachable g st →
  (∀ s, s ∈ knowledge st →
        count s = mines_in (Minesweeper.board g) (cells s)
        ∧ 0 ≤ count s ≤ Z.of_nat (size (cells s)))
  ∧ (∀ c, c ∈ mines st → Minesweeper.is_mine g c = true)
  ∧ (∀ c, c ∈ safes st → Minesweeper.is_mine g c = false)
  ∧ height st = Minesweeper.height g
  ∧ width st = Minesweeper.width g.
Proof.
  intros Hreach.
  destruct (sound_reachable g st Hreach) as (Hh & Hw & Hs & Hm & Hk).
  rewrite Forall_forall in Hk.
  split; [|done]. intros s Hin. specialize (Hk s Hin).
  split; [exact Hk|]. by apply sentence_true_bounds in Hk.
Qed.

(** ** Cells stay on the board *)

Section on_the_board.
Import MinesweeperAI.
Context (h w : Z).
Implicit Types (c x : cell) (st : AI) (s : Sentence) (d : gset cell).

Lemma board_inv_mark_safes d st :
  on_board h w d → board_inv h w st → board_inv h w (mark_safes d st).
Proof.
  intros Hd (Hh & Hw & Hk & Hs). rewrite mark_safes_eq.
  unfold board_inv. cbn [height width knowledge safes moves_made].
  repeat split; try done.
  - intros s x (s0 & -> & Hin)%list_elem_of_fmap Hx.
    apply (Hk s0 x Hin). unfold strip_safes in Hx; simpl in Hx. set_solver.
  - intros x [Hx|Hx]%elem_of_union; [right; by apply Hd|by apply Hs].
Qed.

Lemma board_inv_mark_mines d st :
  board_inv h w st → board_inv h w (mark_mines d st).
Proof.
  intros (Hh & Hw & Hk & Hs). rewrite mark_mines_eq.
  unfold board_inv. cbn [height width knowledge safes moves_made].
  repeat split; try done.
  intros s x (s0 & -> & Hin)%list_elem_of_fmap Hx.
  apply (Hk s0 x Hin). unfold strip_mines in Hx; simpl in Hx. set_solver.
Qed.

Lemma board_inv_mark_mine c st :
  board_inv h w st → board_inv h w (mark_mine c st).
Proof.
  intros (Hh & Hw & Hk & Hs).
  unfold board_inv, mark_mine. cbn [height width knowledge safes moves_made].
  repeat split; try done.
  intros s x (s0 & -> & Hin)%list_elem_of_fmap Hx.
  apply (Hk s0 x Hin). rewrite mark_mine_cells in Hx. set_solver.
Qed.

Lemma board_inv_record_observation c n st :
  board_inv h w st → board_inv h w (record_observation c n st).
Proof.
  intros (Hh & Hw & Hk & Hs).
  unfold board_inv, record_observation, set_knowledge.
  cbn [height width knowledge safes moves_made mark_safe].
  repeat split; try done.
  - intros s x [Hin|Hin]%elem_of_app Hx.
    + apply list_elem_of_fmap in Hin as (s0 & -> & Hin).
      apply (Hk s0 x Hin). rewrite mark_safe_cells in Hx. set_solver.
    + apply list_elem_of_singleton in Hin as ->.
      rewrite new_sentence_of_closed in Hx.
      cbn [cells height width mines safes] in Hx.
      apply elem_of_difference in Hx as [Hx _].
      apply neighbours_spec in Hx. rewrite <- Hh, <- Hw. tauto.
  - intros x [Hx|Hx]%elem_of_union; [left; set_solver|].
    destruct (Hs x Hx); [left; set_solver|by right].
Qed.

Lemma board_inv_subset_rule small big (acc : AI * list Sentence) :
  on_board h w (cells big) →
  board_inv h w acc.1 ∧ Forall (λ s, on_board h w (cells s)) acc.2 →
  board_inv h w (subset_rule small big acc).1
  ∧ Forall (λ s, on_board h w (cells s)) (subset_rule small big acc).2.
Proof.
  intros Hbig [Hinv Hinf]. unfold subset_rule.
  assert (on_board h w (cells big ∖ cells small)) as Hdiff
    by (intros x Hx; apply Hbig; set_solver).
  destruct (decide (count small = count big)); simpl.
  { split; [by apply board_inv_mark_safes|done]. }
  destruct (decide (Z.of_nat (size (cells big ∖ cells small))
                    = count big - count small)); simpl.
  { split; [by apply board_inv_mark_mines|done]. }
  split; [done|]. apply Forall_app. split; [done|].
  by apply Forall_singleton.
Qed.

Lemma board_inv_compare_step (acc : AI * list Sentence) (i : nat) :
  board_inv h w acc.1 ∧ Forall (λ s, on_board h w (cells s)) acc.2 →
  board_inv h w (compare_step acc i).1
  ∧ Forall (λ s, on_board h w (cells s)) (compare_step acc i).2.
Proof.
  intros [Hinv Hinf]. unfold compare_step.
  destruct (knowledge acc.1 !! i) as [sentence|] eqn:Hi; [|done].
  destruct (last (knowledge acc.1)) as [new_sentence|] eqn:Hl; [|done].
  assert (on_board h w (cells sentence)
          ∧ on_board h w (cells new_sentence)) as [H1 H2].
  { destruct Hinv as (_ & _ & Hk & _). split; intros x Hx.
    - eapply Hk; [by eapply list_elem_of_lookup_2|done].
    - eapply Hk; [by apply last_Some_elem_of|done]. }
  destruct (Sentence.eqb sentence new_sentence); [done|].
  destruct (decide (cells sentence ⊆ cells new_sentence));
    [by apply board_inv_subset_rule|].
  destruct (decide (cells new_sentence ⊆ cells sentence));
    [by apply board_inv_subset_rule|done].
Qed.

Lemma board_inv_mark_or_not (t : bool) d st :
  board_inv h w st →
  board_inv h w (if t then mark_mines d st else st).
Proof. destruct t; [apply board_inv_mark_mines|done]. Qed.

Lemma board_inv_harvest_step (acc : AI * list nat) (i : nat) :
  board_inv h w acc.1 → board_inv h w (harvest_step acc i).1.
Proof.
  intros Hinv. unfold harvest_step.
  destruct (knowledge acc.1 !! i) as [s|] eqn:Hi; [|done].
  assert (on_board h w (cells s)) as Hs.
  { destruct Hinv as (_ & _ & Hk & _). intros x Hx.
    eapply Hk; [by eapply list_elem_of_lookup_2|done]. }
  cbn [fst snd].
  apply (board_inv_mark_or_not (truthy (Sentence.known_mines s).1)).
  destruct (truthy (Sentence.known_safes s).1) eqn:Ht; [|done].
  apply board_inv_mark_safes; [|done].
  unfold Sentence.known_safes in *.
  destruct (decide (count s = 0)); [done|done].
Qed.

Lemma board_inv_add_knowledge c n st :
  board_inv h w st → board_inv h w (add_knowledge c n st).
Proof.
  intros Hinv. unfold add_knowledge.
  assert (board_inv h w
            (remove_duplicates
               (extend_knowledge (compare_all (record_observation c n st)))))
    as Hd.
  { assert (board_inv h w (compare_all (record_observation c n st)).1
            ∧ Forall (λ s, on_board h w (cells s))
                (compare_all (record_observation c n st)).2)
      as [(Hh & Hw & Hk & Hs) Hinf].
    { unfold compare_all.
      apply (foldl_invariant
               (λ acc, board_inv h w acc.1
                       ∧ Forall (λ s, on_board h w (cells s)) acc.2)
               (λ _, True)).
      - intros acc i H _. by apply board_inv_compare_step.
      - by apply Forall_forall.
      - split; [by apply board_inv_record_observation|done]. }
    unfold board_inv, remove_duplicates, extend_knowledge, set_knowledge.
    cbn [height width knowledge safes moves_made].
    repeat split; try done.
    intros s x [Hin|Hin]%remove_duplicates_loop_elem Hx; [set_solver|].
    apply elem_of_app in Hin as [Hin|Hin]; [by eapply Hk|].
    rewrite Forall_forall in Hinf. by eapply Hinf. }
  unfold add_known_safes_and_mines.
  set (k := remove_duplicates _) in *.
  assert (board_inv h w
            (foldl harvest_step (k, []) (seq 0 (length (knowledge k)))).1)
    as (Hh & Hw & Hk & Hs).
  { apply (foldl_invariant (λ acc, board_inv h w acc.1) (λ _, True)).
    - intros acc i H _. by apply board_inv_harvest_step.
    - by apply Forall_forall.
    - done. }
  unfold board_inv, set_knowledge. cbn [height width knowledge safes moves_made].
  repeat split; try done.
  intros s x (i & _ & Hi)%list_elem_of_omap Hx.
  eapply Hk; [by eapply list_elem_of_lookup_2|done].
Qed.

End on_the_board.

(** [X13] Whatever arguments the driver passes to [add_knowledge] and
    [mark_mine] (no precondition is assumed), starting from a fresh
    engine: the dimensions never change, every cell of every stored
    sentence lies on the board, and every move that [make_safe_move]
    returns lies on the board and has not been played. *)
Theorem stored_cells_stay_on_board (h w : Z) (st : AI) :
  rtc any_call (MinesweeperAI.init h w) st →
  height st = h ∧ width st = w
  ∧ cells_on_board st
  ∧ (∀ choice c, (MinesweeperAI.make_safe_move choice st).1 = Some c →
                 in_bounds h w c = true ∧ c ∉ moves_made st).
Proof.
  intros Hcalls.
  assert (board_inv h w st) as (Hh & Hw & Hk & Hs).
  { revert st Hcalls. apply rtc_ind_r.
    - unfold board_inv, MinesweeperAI.init; simpl.
      repeat split; try done; set_solver.
    - intros st1 st2 _ [st0 c n|st0 c] IH.
      + by apply board_inv_add_knowledge.
      + by apply board_inv_mark_mine. }
  split; [done|]. split; [done|]. split.
  - unfold cells_on_board. rewrite Hh, Hw. exact Hk.
  - intros choice c [Hin Hnot]%move_selection_exhaustion_safe.
    split; [|done]. destruct (Hs c Hin); done.
Qed.

(** ** Observations that settle all neighbours *)

Lemma nearby_mines_closed (g : Minesweeper.t) (c : cell) :
  Minesweeper.nearby_mines g c
  = mines_in (Minesweeper.board g)
      (neighbours (Minesweeper.height g) (Minesweeper.width g) c).
Proof.
  unfold Minesweeper.nearby_mines, neighbours.
  rewrite nearby_mines_loop by apply around_NoDup. lia.
Qed.

Lemma mines_in_all_mines (b : cell → bool) (X : gset cell) :
  (∀ x, x ∈ X → b x = true) → mines_in b X = Z.of_nat (size X).
Proof.
  intros H. unfold mines_in. f_equal. f_equal.
  apply set_eq. intros x. rewrite elem_of_filter. split; [tauto|].
  intros Hx. split; [by apply H|done].
Qed.



Lemma new_sentence_closed_form_last (c : cell) (n : Z) (st : AI) :
  last (knowledge (MinesweeperAI.record_observation c n st))
  = Some (mkSentence
            (neighbours (height st) (width st) c ∖ (mines st ∪ safes st))
            (n - Z.of_nat (size (neighbours (height st) (width st) c
                                 ∩ mines st)))).
Proof.
  assert (c ∉ neighbours (height st) (width st) c) as Hc.
  { intros H. apply neighbours_spec in H. tauto. }
  unfold MinesweeperAI.record_observation, set_knowledge.
  cbn [knowledge]. rewrite last_snoc. f_equal.
  rewrite new_sentence_of_closed.
  cbn [height width mines safes MinesweeperAI.mark_safe].
  f_equal. set_solver.
Qed.

Section zero_observation.
Import MinesweeperAI.
Context (g : Minesweeper.t).
#[local] Abbreviation b := (Minesweeper.board g).
Implicit Types (c x : cell) (st : AI) (s : Sentence) (d : gset cell).

Lemma zero_tracked_mark_safes x j d st :
  zero_tracked x j st → zero_tracked x j (mark_safes d st).
Proof.
  rewrite mark_safes_eq. unfold zero_tracked. cbn [safes knowledge].
  intros [Hx|(s & Hj & Hx & Hc)]; [left; set_solver|].
  destruct (decide (x ∈ d)); [left; set_solver|]. right.
  exists (strip_safes d s). rewrite list_lookup_fmap, Hj.
  split; [done|]. unfold strip_safes; simpl. split; [set_solver|done].
Qed.

Lemma zero_tracked_mark_mines x j d st :
  sound g st → (∀ y, y ∈ d → b y = true) →
  zero_tracked x j st → zero_tracked x j (mark_mines d st).
Proof.
  intros (_ & _ & _ & _ & Hk) Hd. rewrite mark_mines_eq.
  unfold zero_tracked. cbn [safes knowledge].
  intros [Hx|(s & Hj & Hx & Hc)]; [by left|]. right.
  assert (sentence_true b s) as Hs.
  { rewrite Forall_forall in Hk. apply Hk. by eapply list_elem_of_lookup_2. }
  unfold sentence_true in Hs.
  assert (∀ y, y ∈ cells s → b y = false) as Hsafe
    by (intros y Hy; eapply mines_in_zero; [|exact Hy]; lia).
  assert (cells s ∩ d = ∅) as Hdisj.
  { apply set_eq. intros y. split; [|set_solver].
    intros [H1 H2]%elem_of_intersection.
    specialize (Hsafe y H1). specialize (Hd y H2). congruence. }
  exists (strip_mines d s). rewrite list_lookup_fmap, Hj.
  split; [done|]. unfold strip_mines; simpl. split.
  - apply elem_of_difference. split; [done|]. set_solver.
  - rewrite Hdisj, size_empty. lia.
Qed.

Lemma zero_tracked_subset_rule x j small big (acc : AI * list Sentence) :
  sound g acc.1 → sentence_true b small → sentence_true b big →
  cells small ⊆ cells big →
  zero_tracked x j acc.1 → zero_tracked x j (subset_rule small big acc).1.
Proof.
  intros Hst Hsmall Hbig Hsub Hz. unfold subset_rule.
  pose proof (mines_in_difference b _ _ Hsub) as Hdiff.
  unfold sentence_true in Hsmall, Hbig.
  destruct (decide (count small = count big)); simpl.
  { by apply zero_tracked_mark_safes. }
  destruct (decide (Z.of_nat (size (cells big ∖ cells small))
                    = count big - count small)); simpl; [|done].
  apply zero_tracked_mark_mines; [done| |done].
  intros y Hy. eapply mines_in_full; [|exact Hy]. lia.
Qed.

Lemma zero_tracked_compare_step x j (acc : AI * list Sentence) (i : nat) :
  sound g acc.1 →
  zero_tracked x j acc.1 → zero_tracked x j (compare_step acc i).1.
Proof.
  intros Hst Hz. unfold compare_step.
  destruct (knowledge acc.1 !! i) as [sentence|] eqn:Hi; [|done].
  destruct (last (knowledge acc.1)) as [new_sentence|] eqn:Hl; [|done].
  assert (sentence_true b sentence ∧ sentence_true b new_sentence)
    as [H1 H2].
  { destruct Hst as (_ & _ & _ & _ & Hk).
    rewrite Forall_forall in Hk. split; apply Hk.
    - by eapply list_elem_of_lookup_2.
    - by apply last_Some_elem_of. }
  destruct (Sentence.eqb sentence new_sentence); [done|].
  destruct (decide (cells sentence ⊆ cells new_sentence));
    [by apply zero_tracked_subset_rule|].
  destruct (decide (cells new_sentence ⊆ cells sentence));
    [by apply zero_tracked_subset_rule|done].
Qed.

Lemma zero_tracked_compare_all x j st :
  sound g st → zero_tracked x j st → zero_tracked x j (compare_all st).1.
Proof.
  intros Hst Hz. unfold compare_all.
  apply (foldl_invariant
           (λ acc, (sound g acc.1 ∧ Forall (sentence_true b) acc.2)
                   ∧ zero_tracked x j acc.1)
           (λ _, True)).
  - intros acc i [Hs Ht] _. split; [by apply sound_compare_step|].
    apply zero_tracked_compare_step; [tauto|done].
  - by apply Forall_forall.
  - done.
Qed.

Lemma zero_tracked_harvest_step x j (acc : AI * list nat) (i : nat) :
  sound g acc.1 → zero_tracked x j acc.1 →
  zero_tracked x j (harvest_step acc i).1
  ∧ (i = j → x ∈ safes (harvest_step acc i).1).
Proof.
  intros Hst Hz. unfold harvest_step.
  destruct (knowledge acc.1 !! i) as [s|] eqn:Hi.
  - assert (sentence_true b s) as Hs.
    { destruct Hst as (_ & _ & _ & _ & Hk).
      rewrite Forall_forall in Hk. apply Hk.
      by eapply list_elem_of_lookup_2. }
    unfold sentence_true in Hs. cbn [fst snd].
    set (st1 := if truthy (Sentence.known_safes s).1 then _ else _).
    assert (sound g st1 ∧ zero_tracked x j st1
            ∧ (i = j → x ∈ safes st1)) as (Hsound1 & Hz1 & Hj1).
    { subst st1. unfold Sentence.known_safes.
      destruct (decide (count s = 0)) as [Hc|Hc]; cbn [fst truthy default].
      - destruct (bool_decide (cells s = ∅)) eqn:He; cbn [negb].
        + apply bool_decide_eq_true in He.
          split; [done|]. split; [done|]. intros ->.
          destruct Hz as [Hx|(s' & Hj & Hx & _)]; [done|].
          simplify_eq. set_solver.
        + split; [|split].
          * apply sound_mark_safes; [|done]. unfold id.
            intros y Hy. eapply mines_in_zero; [|exact Hy]. lia.
          * by apply zero_tracked_mark_safes.
          * intros ->. rewrite mark_safes_eq. cbn [safes]. unfold id.
            destruct Hz as [Hx|(s' & Hj & Hx & _)]; [set_solver|].
            simplify_eq. set_solver.
      - split; [done|]. split; [done|]. intros ->.
        destruct Hz as [Hx|(s' & Hj & Hx & Hc')]; [done|].
        simplify_eq. }
    destruct (truthy (Sentence.known_mines s).1) eqn:Ht.
    + split.
      * apply zero_tracked_mark_mines; [done| |done].
        unfold Sentence.known_mines in *.
        destruct (decide (Z.of_nat (size (cells s)) = count s)); [|done].
        simpl. intros y Hy. eapply mines_in_full; [|exact Hy]. lia.
      * intros Hij. apply grows_mark_mines. by apply Hj1.
    + done.
  - split; [done|]. intros ->.
    destruct Hz as [Hx|(s' & Hj & _)]; [done|]. simplify_eq.
Qed.

Lemma zero_tracked_harvest_loop x j st (n : nat) :
  sound g st → zero_tracked x j st →
  let r := foldl harvest_step (st, []) (seq 0 n) in
  sound g r.1 ∧ zero_tracked x j r.1 ∧ ((j < n)%nat → x ∈ safes r.1).
Proof.
  intros Hst Hz. cbv zeta.
  induction n as [|n (IH1 & IH2 & IH3)].
  - simpl. split; [done|]. split; [done|]. lia.
  - rewrite seq_S, foldl_snoc. cbn [Nat.add].
    set (acc := foldl harvest_step (st, []) (seq 0 n)) in *.
    destruct (zero_tracked_harvest_step x j acc n IH1 IH2) as [H1 H2].
    split; [by apply sound_harvest_step|]. split; [done|].
    intros Hlt. destruct (decide (n = j)) as [Heq|Hne]; [by apply H2|].
    apply grows_harvest_step, IH3. lia.
Qed.

Lemma zero_tracked_add_knowledge x j c st :
  b c = false → sound g st →
  zero_tracked x j (record_observation c (Minesweeper.nearby_mines g c) st) →
  x ∈ safes (add_knowledge c (Minesweeper.nearby_mines g c) st).
Proof.
  intros Hc Hst Hz. unfold add_knowledge.
  set (st1 := record_observation c (Minesweeper.nearby_mines g c) st) in *.
  assert (sound g st1) as Hs1 by (by apply sound_record_observation).
  destruct (sound_compare_all g st1 Hs1) as [Hs2 Hinf].
  pose proof (zero_tracked_compare_all x j st1 Hs1 Hz) as Hz2.
  set (st3 := remove_duplicates (extend_knowledge (compare_all st1))).
  assert (sound g st3) as Hs3.
  { apply sound_remove_duplicates.
    destruct Hs2 as (Hh & Hw & Hs & Hm & Hk).
    unfold sound, extend_knowledge, set_knowledge.
    cbn [height width safes mines knowledge].
    repeat split; try done. by apply Forall_app. }
  destruct Hz2 as [Hx|(s & Hj & Hx & Hcount)].
  { apply grows_add_known_safes_and_mines. exact Hx. }
  assert (s ∈ knowledge st3) as Hin.
  { unfold st3, remove_duplicates, extend_knowledge, set_knowledge.
    cbn [knowledge]. apply remove_duplicates_loop_keeps. right.
    apply elem_of_app. left. by eapply list_elem_of_lookup_2. }
  apply list_elem_of_lookup_1 in Hin as [j' Hj'].
  pose proof (lookup_lt_Some _ _ _ Hj') as Hlt.
  assert (zero_tracked x j' st3) as Hz3 by (right; eauto).
  destruct (zero_tracked_harvest_loop x j' st3 (length (knowledge st3))
              Hs3 Hz3) as (_ & _ & Hfinal).
  unfold add_known_safes_and_mines, set_knowledge. cbn [safes].
  by apply Hfinal.
Qed.

End zero_observation.

(** [X14] Under the documented preconditions, observing a cell that has
    no mine around it settles its whole neighbourhood at once: when
    [add_knowledge] returns, every cell of the board around the observed
    cell is in [safes]. *)
Theorem zero_observation_clears_neighbours (g : Minesweeper.t) (st : AI)
  (c : cell) :
  reachable g st →
  Minesweeper.is_mine g c = false →
  Minesweeper.nearby_mines g c = 0 →
  ∀ x, x ∈ neighbours (Minesweeper.height g) (Minesweeper.width g) c →
       x ∈ safes (MinesweeperAI.add_knowledge c 0 st).
Proof.
  intros Hreach Hc Hzero x Hx.
  pose proof (sound_reachable g st Hreach) as Hst.
  rewrite <- Hzero.
  pose proof (nearby_mines_closed g c) as Hclosed.
  assert (Minesweeper.board g x = false) as Hbx.
  { eapply mines_in_zero; [|exact Hx]. rewrite <- Hclosed. exact Hzero. }
  destruct Hst as (Hh & Hw & Hs & Hm & Hk).
  assert (sound g st) as Hst by done.
  apply (zero_tracked_add_knowledge g x (length (knowledge st)) c st Hc Hst).
  unfold zero_tracked.
  destruct (decide (x ∈ safes st)) as [Hsafe|Hnsafe].
  { left. unfold MinesweeperAI.record_observation; simpl. set_solver. }
  right.
  assert (last (knowledge (MinesweeperAI.record_observation c
                             (Minesweeper.nearby_mines g c) st))
          = Some (mkSentence
                    (neighbours (height st) (width st) c
                       ∖ (mines st ∪ safes st))
                    (Minesweeper.nearby_mines g c
                     - Z.of_nat (size (neighbours (height st) (width st) c
                                       ∩ mines st)))))
    as Hlast by apply new_sentence_closed_form_last.
  rewrite last_lookup in Hlast.
  assert (length (knowledge (MinesweeperAI.record_observation c
                               (Minesweeper.nearby_mines g c) st))
          = S (length (knowledge st))) as Hlen.
  { unfold MinesweeperAI.record_observation, set_knowledge.
    cbn [knowledge MinesweeperAI.mark_safe].
    rewrite length_app, length_fmap. simpl. lia. }
  rewrite Hlen in Hlast. simpl in Hlast.
  eexists. split; [exact Hlast|]. cbn [cells count].
  rewrite Hh, Hw.
  assert (neighbours (Minesweeper.height g) (Minesweeper.width g) c
          ∩ mines st = ∅) as Hnm.
  { apply set_eq. intros y. split; [|set_solver].
    intros [H1 H2]%elem_of_intersection.
    assert (Minesweeper.board g y = false)
      by (eapply mines_in_zero; [|exact H1]; rewrite <- Hclosed; exact Hzero).
    specialize (Hm y H2). congruence. }
  split.
  - apply elem_of_difference. split; [done|].
    intros [H|H]%elem_of_union; [|done].
    specialize (Hm x H). congruence.
  - rewrite Hnm, size_empty. lia.
Qed.

Section full_observation.
Import MinesweeperAI.
Context (g : Minesweeper.t).
#[local] Abbreviation b := (Minesweeper.board g).
Implicit Types (c x : cell) (st : AI) (s : Sentence) (d : gset cell).

Lemma full_sentence_all_mines s :
  sentence_true b s → count s = Z.of_nat (size (cells s)) →
  ∀ y, y ∈ cells s → b y = true.
Proof.
  unfold sentence_true. intros Hs Hc y Hy.
  eapply mines_in_full; [|exact Hy]. lia.
Qed.

Lemma full_tracked_mark_safes x j d st :
  sound g st → (∀ y, y ∈ d → b y = false) →
  full_tracked x j st → full_tracked x j (mark_safes d st).
Proof.
  intros (_ & _ & _ & _ & Hk) Hd. rewrite mark_safes_eq.
  unfold full_tracked. cbn [mines knowledge].
  intros [Hx|(s & Hj & Hx & Hc)]; [by left|]. right.
  assert (sentence_true b s) as Hs.
  { rewrite Forall_forall in Hk. apply Hk. by eapply list_elem_of_lookup_2. }
  pose proof (full_sentence_all_mines s Hs Hc) as Hall.
  assert (cells s ∖ d = cells s) as Hsame.
  { apply set_eq. intros y. split; [set_solver|]. intros Hy.
    apply elem_of_difference. split; [done|]. intros Hyd.
    specialize (Hall y Hy). specialize (Hd y Hyd). congruence. }
  exists (strip_safes d s). rewrite list_lookup_fmap, Hj.
  split; [done|]. unfold strip_safes; simpl. rewrite Hsame. done.
Qed.

Lemma full_tracked_mark_mines x j d st :
  full_tracked x j st → full_tracked x j (mark_mines d st).
Proof.
  rewrite mark_mines_eq. unfold full_tracked. cbn [mines knowledge].
  intros [Hx|(s & Hj & Hx & Hc)]; [left; set_solver|].
  destruct (decide (x ∈ d)); [left; set_solver|]. right.
  exists (strip_mines d s). rewrite list_lookup_fmap, Hj.
  split; [done|]. unfold strip_mines; simpl. split; [set_solver|].
  pose proof (size_difference_alt (cells s) d) as Hsz.
  assert (size (cells s ∩ d) ≤ size (cells s))%nat
    by (apply subseteq_size; set_solver).
  lia.
Qed.

Lemma full_tracked_subset_rule x j small big (acc : AI * list Sentence) :
  sound g acc.1 → sentence_true b small → sentence_true b big →
  cells small ⊆ cells big →
  full_tracked x j acc.1 → full_tracked x j (subset_rule small big acc).1.
Proof.
  intros Hst Hsmall Hbig Hsub Hz. unfold subset_rule.
  pose proof (mines_in_difference b _ _ Hsub) as Hdiff.
  unfold sentence_true in Hsmall, Hbig.
  destruct (decide (count small = count big)); simpl.
  { apply full_tracked_mark_safes; [done| |done].
    intros y Hy. eapply mines_in_zero; [|exact Hy]. lia. }
  destruct (decide (Z.of_nat (size (cells big ∖ cells small))
                    = count big - count small)); simpl; [|done].
  by apply full_tracked_mark_mines.
Qed.

Lemma full_tracked_compare_step x j (acc : AI * list Sentence) (i : nat) :
  sound g acc.1 →
  full_tracked x j acc.1 → full_tracked x j (compare_step acc i).1.
Proof.
  intros Hst Hz. unfold compare_step.
  destruct (knowledge acc.1 !! i) as [sentence|] eqn:Hi; [|done].
  destruct (last (knowledge acc.1)) as [new_sentence|] eqn:Hl; [|done].
  assert (sentence_true b sentence ∧ sentence_true b new_sentence)
    as [H1 H2].
  { destruct Hst as (_ & _ & _ & _ & Hk).
    rewrite Forall_forall in Hk. split; apply Hk.
    - by eapply list_elem_of_lookup_2.
    - by apply last_Some_elem_of. }
  destruct (Sentence.eqb sentence new_sentence); [done|].
  destruct (decide (cells sentence ⊆ cells new_sentence));
    [by apply full_tracked_subset_rule|].
  destruct (decide (cells new_sentence ⊆ cells sentence));
    [by apply full_tracked_subset_rule|done].
Qed.

Lemma full_tracked_compare_all x j st :
  sound g st → full_tracked x j st → full_tracked x j (compare_all st).1.
Proof.
  intros Hst Hz. unfold compare_all.
  apply (foldl_invariant
           (λ acc, (sound g acc.1 ∧ Forall (sentence_true b) acc.2)
                   ∧ full_tracked x j acc.1)
           (λ _, True)).
  - intros acc i [Hs Ht] _. split; [by apply sound_compare_step|].
    apply full_tracked_compare_step; [tauto|done].
  - by apply Forall_forall.
  - done.
Qed.

Lemma full_tracked_harvest_step x j (acc : AI * list nat) (i : nat) :
  sound g acc.1 → full_tracked x j acc.1 →
  full_tracked x j (harvest_step acc i).1
  ∧ (i = j → x ∈ mines (harvest_step acc i).1).
Proof.
  intros Hst Hz. unfold harvest_step.
  destruct (knowledge acc.1 !! i) as [s|] eqn:Hi.
  - assert (sentence_true b s) as Hs.
    { destruct Hst as (_ & _ & _ & _ & Hk).
      rewrite Forall_forall in Hk. apply Hk.
      by eapply list_elem_of_lookup_2. }
    cbn [fst snd].
    set (st1 := if truthy (Sentence.known_safes s).1 then _ else _).
    assert (full_tracked x j st1 ∧ mines acc.1 ⊆ mines st1) as [Hz1 Hm1].
    { subst st1. destruct (truthy (Sentence.known_safes s).1) eqn:Ht;
        [|done].
      split; [|apply grows_mark_safes].
      apply full_tracked_mark_safes; [done| |done].
      unfold Sentence.known_safes in *. unfold sentence_true in Hs.
      destruct (decide (count s = 0)); [|done]. simpl.
      intros y Hy. eapply mines_in_zero; [|exact Hy]. lia. }
    unfold Sentence.known_mines.
    destruct (decide (Z.of_nat (size (cells s)) = count s)) as [Hc|Hc];
      cbn [fst truthy default].
    + destruct (bool_decide (cells s = ∅)) eqn:He; cbn [negb].
      * apply bool_decide_eq_true in He. split; [done|]. intros ->.
        destruct Hz as [Hx|(s' & Hj & Hx & _)]; [by apply Hm1|].
        simplify_eq. set_solver.
      * unfold id. split; [by apply full_tracked_mark_mines|].
        intros ->. rewrite mark_mines_eq. cbn [mines].
        destruct Hz as [Hx|(s' & Hj & Hx & _)].
        -- apply elem_of_union. right. by apply Hm1.
        -- simplify_eq. set_solver.
    + split; [done|]. intros ->.
      destruct Hz as [Hx|(s' & Hj & Hx & Hc')]; [by apply Hm1|].
      simplify_eq; lia.
  - split; [done|]. intros ->.
    destruct Hz as [Hx|(s' & Hj & _)]; [done|]. simplify_eq.
Qed.

Lemma full_tracked_harvest_loop x j st (n : nat) :
  sound g st → full_tracked x j st →
  let r := foldl harvest_step (st, []) (seq 0 n) in
  sound g r.1 ∧ full_tracked x j r.1 ∧ ((j < n)%nat → x ∈ mines r.1).
Proof.
  intros Hst Hz. cbv zeta.
  induction n as [|n (IH1 & IH2 & IH3)].
  - simpl. split; [done|]. split; [done|]. lia.
  - rewrite seq_S, foldl_snoc. cbn [Nat.add].
    set (acc := foldl harvest_step (st, []) (seq 0 n)) in *.
    destruct (full_tracked_harvest_step x j acc n IH1 IH2) as [H1 H2].
    split; [by apply sound_harvest_step|]. split; [done|].
    intros Hlt. destruct (decide (n = j)) as [Heq|Hne]; [by apply H2|].
    apply grows_harvest_step, IH3. lia.
Qed.

Lemma full_tracked_add_knowledge x j c st :
  b c = false → sound g st →
  full_tracked x j (record_observation c (Minesweeper.nearby_mines g c) st) →
  x ∈ mines (add_knowledge c (Minesweeper.nearby_mines g c) st).
Proof.
  intros Hc Hst Hz. unfold add_knowledge.
  set (st1 := record_observation c (Minesweeper.nearby_mines g c) st) in *.
  assert (sound g st1) as Hs1 by (by apply sound_record_observation).
  destruct (sound_compare_all g st1 Hs1) as [Hs2 Hinf].
  pose proof (full_tracked_compare_all x j st1 Hs1 Hz) as Hz2.
  set (st3 := remove_duplicates (extend_knowledge (compare_all st1))).
  assert (sound g st3) as Hs3.
  { apply sound_remove_duplicates.
    destruct Hs2 as (Hh & Hw & Hs & Hm & Hk).
    unfold sound, extend_knowledge, set_knowledge.
    cbn [height width safes mines knowledge].
    repeat split; try done. by apply Forall_app. }
  destruct Hz2 as [Hx|(s & Hj & Hx & Hcount)].
  { apply grows_add_known_safes_and_mines. exact Hx. }
  assert (s ∈ knowledge st3) as Hin.
  { unfold st3, remove_duplicates, extend_knowledge, set_knowledge.
    cbn [knowledge]. apply remove_duplicates_loop_keeps. right.
    apply elem_of_app. left. by eapply list_elem_of_lookup_2. }
  apply list_elem_of_lookup_1 in Hin as [j' Hj'].
  pose proof (lookup_lt_Some _ _ _ Hj') as Hlt.
  assert (full_tracked x j' st3) as Hz3 by (right; eauto).
  destruct (full_tracked_harvest_loop x j' st3 (length (knowledge st3))
              Hs3 Hz3) as (_ & _ & Hfinal).
  unfold add_known_safes_and_mines, set_knowledge. cbn [mines].
  by apply Hfinal.
Qed.

End full_observation.

(** [X15] Under the documented preconditions, an observation whose
    count accounts for every cell around it that is not yet known safe
    settles the neighbourhood at once: if every cell of the board around
    the observed cell that is not in [safes] is a mine, then all these
    cells are in [mines] when [add_knowledge] returns. *)
Theorem full_observation_flags_neighbours (g : Minesweeper.t) (st : AI)
  (c : cell) :
  reachable g st →
  Minesweeper.is_mine g c = false →
  (∀ x, x ∈ neighbours (Minesweeper.height g) (Minesweeper.width g) c →
        x ∉ safes st → Minesweeper.is_mine g x = true) →
  ∀ x, x ∈ neighbours (Minesweeper.height g) (Minesweeper.width g) c →
       x ∉ safes st →
       x ∈ mines (MinesweeperAI.add_knowledge c
                    (Minesweeper.nearby_mines g c) st).
Proof.
  intros Hreach Hc Hall x Hx Hnsafe.
  pose proof (sound_reachable g st Hreach) as Hst.
  pose proof (sound_record_observation g c st Hc Hst) as Hst1.
  destruct Hst as (Hh & Hw & Hs & Hm & Hk).
  assert (sound g st) as Hst by done.
  apply (full_tracked_add_knowledge g x (length (knowledge st)) c st Hc Hst).
  unfold full_tracked.
  destruct (decide (x ∈ mines st)) as [Hmine|Hnmine].
  { left. unfold MinesweeperAI.record_observation; simpl. done. }
  right.
  assert (last (knowledge (MinesweeperAI.record_observation c
                             (Minesweeper.nearby_mines g c) st))
          = Some (mkSentence
                    (neighbours (height st) (width st) c
                       ∖ (mines st ∪ safes st))
                    (Minesweeper.nearby_mines g c
                     - Z.of_nat (size (neighbours (height st) (width st) c
                                       ∩ mines st)))))
    as Hlast by apply new_sentence_closed_form_last.
  assert (sentence_true (Minesweeper.board g)
            (mkSentence
               (neighbours (height st) (width st) c ∖ (mines st ∪ safes st))
               (Minesweeper.nearby_mines g c
                - Z.of_nat (size (neighbours (height st) (width st) c
                                  ∩ mines st))))) as Htrue.
  { destruct Hst1 as (_ & _ & _ & _ & Hk1).
    rewrite Forall_forall in Hk1. apply Hk1.
    by apply last_Some_elem_of. }
  rewrite last_lookup in Hlast.
  assert (length (knowledge (MinesweeperAI.record_observation c
                               (Minesweeper.nearby_mines g c) st))
          = S (length (knowledge st))) as Hlen.
  { unfold MinesweeperAI.record_observation, set_knowledge.
    cbn [knowledge MinesweeperAI.mark_safe].
    rewrite length_app, length_fmap. simpl. lia. }
  rewrite Hlen in Hlast. simpl in Hlast.
  eexists. split; [exact Hlast|]. cbn [cells count].
  split.
  - rewrite Hh, Hw. apply elem_of_difference. split; [done|]. set_solver.
  - unfold sentence_true in Htrue. cbn [cells count] in Htrue.
    rewrite Htrue. apply mines_in_all_mines.
    intros y [Hy Hny]%elem_of_difference.
    rewrite Hh, Hw in Hy. apply Hall; [done|set_solver].
Qed.

(** ** [Minesweeper.__init__] *)

Section game_construction.
Implicit Types (h w target : Z) (H W i j : nat) (m : gset cell)
  (bd : list (list bool)).

Lemma foldl_append_constant {A B} (x : A) (l : list B) (acc : list A) :
  foldl (λ a _, a ++ [x]) acc l = acc ++ replicate (length l) x.
Proof.
  revert acc. induction l as [|y l IH]; intros acc; simpl.
  - by rewrite app_nil_r.
  - rewrite IH, <- app_assoc. done.
Qed.

Lemma range_length (n : Z) : length (range n) = Z.to_nat n.
Proof. unfold range. by rewrite length_fmap, length_seq. Qed.

Lemma make_board_eq h w :
  Game.make_board h w
  = replicate (Z.to_nat h) (replicate (Z.to_nat w) false).
Proof.
  unfold Game.make_board, Game.make_row.
  rewrite !foldl_append_constant, !range_length. done.
Qed.

Lemma board_agrees_initial h w :
  board_agrees (Z.to_nat h) (Z.to_nat w) ∅ (Game.make_board h w).
Proof.
  rewrite make_board_eq. unfold board_agrees.
  split; [by rewrite length_replicate|]. split; [|split].
  - intros i row [-> _]%lookup_replicate. by rewrite length_replicate.
  - intros i j row [-> _]%lookup_replicate. split.
    + intros [? _]%lookup_replicate. done.
    + intros ?%not_elem_of_empty. done.
  - intros c ?%not_elem_of_empty. done.
Qed.

Lemma board_agrees_get H W m bd i j :
  board_agrees H W m bd → (i < H)%nat → (j < W)%nat →
  ∃ row v, bd !! i = Some row ∧ row !! j = Some v
           ∧ Game.board_get bd i j = Some v.
Proof.
  intros (Hlen & Hrows & _) Hi Hj.
  destruct (lookup_lt_is_Some_2 bd i) as [row Hrow]; [lia|].
  destruct (lookup_lt_is_Some_2 row j) as [v Hv];
    [rewrite (Hrows i row Hrow); lia|].
  exists row, v. split; [done|]. split; [done|].
  unfold Game.board_get. rewrite Hrow. simpl. done.
Qed.

Lemma board_agrees_set H W m bd i j row :
  board_agrees H W m bd → (i < H)%nat → (j < W)%nat →
  bd !! i = Some row →
  board_agrees H W ({[ (Z.of_nat i, Z.of_nat j) ]} ∪ m)
    (Game.board_set bd i j).
Proof.
  intros (Hlen & Hrows & Hcells & Hin) Hi Hj Hrow.
  unfold Game.board_set. rewrite Hrow. unfold board_agrees.
  split; [by rewrite length_insert|]. split; [|split].
  - intros i' row'. destruct (decide (i' = i)) as [->|Hne].
    + rewrite list_lookup_insert_eq by lia. intros [= <-].
      rewrite length_insert. by eapply Hrows.
    + rewrite list_lookup_insert_ne by done. apply Hrows.
  - intros i' j' row'. destruct (decide (i' = i)) as [->|Hne].
    + rewrite list_lookup_insert_eq by lia. intros [= <-].
      destruct (decide (j' = j)) as [->|Hnej].
      * rewrite list_lookup_insert_eq
          by (rewrite (Hrows i row Hrow); lia).
        split; [set_solver|done].
      * rewrite list_lookup_insert_ne by done.
        rewrite (Hcells i j' row Hrow). split; [set_solver|].
        intros [Heq%elem_of_singleton|?]%elem_of_union; [|done].
        exfalso. apply Hnej. injection Heq. lia.
    + rewrite list_lookup_insert_ne by done. intros Hrow'.
      rewrite (Hcells i' j' row' Hrow'). split; [set_solver|].
      intros [Heq%elem_of_singleton|?]%elem_of_union; [|done].
      exfalso. apply Hne. injection Heq. lia.
  - intros c [->%elem_of_singleton|Hc]%elem_of_union; [|by apply Hin].
    exists i, j. done.
Qed.

Lemma size_list_to_set_le (l : list cell) :
  (size (list_to_set (C := gset cell) l) ≤ length l)%nat.
Proof.
  induction l as [|x l IH].
  { change (size (∅ : gset cell) ≤ 0)%nat. by rewrite size_empty. }
  rewrite list_to_set_cons. cbn [length].
  pose proof (size_union_alt ({[x]} : gset cell) (list_to_set l)) as Hu.
  rewrite size_singleton in Hu.
  assert (size (list_to_set (C := gset cell) l ∖ {[x]})
          ≤ size (list_to_set (C := gset cell) l))%nat
    by (apply subseteq_size; set_solver).
  lia.
Qed.

Lemma length_bind_constant {A B} (f : A → list B) (n : nat) (l : list A) :
  (∀ x, length (f x) = n) → length (l ≫= f) = (length l * n)%nat.
Proof.
  intros Hf. induction l as [|x l IH]; [done|].
  change ((x :: l) ≫= f) with (f x ++ (l ≫= f)).
  rewrite length_app, IH, Hf. simpl. lia.
Qed.

Lemma grid_length H W :
  length (i ← seq 0 H; j ← seq 0 W; [(Z.of_nat i, Z.of_nat j)]) = (H * W)%nat.
Proof.
  rewrite (length_bind_constant _ W).
  - by rewrite length_seq.
  - intros i. rewrite (length_bind_constant _ 1%nat); [|done].
    rewrite length_seq. lia.
Qed.

Lemma board_agrees_size H W m bd :
  board_agrees H W m bd → (size m ≤ H * W)%nat.
Proof.
  intros (_ & _ & _ & Hin).
  rewrite <- (grid_length H W).
  etrans; [|apply size_list_to_set_le].
  apply subseteq_size. intros c Hc.
  destruct (Hin c Hc) as (i & j & -> & Hi & Hj).
  apply elem_of_list_to_set, list_elem_of_bind. exists i.
  split; [|apply elem_of_seq; lia].
  apply list_elem_of_bind. exists j.
  split; [by apply list_elem_of_singleton|apply elem_of_seq; lia].
Qed.

Lemma randrange_positive (n : Z) (r : nat) :
  0 < n → ∃ i, Game.randrange n r = Some i ∧ (i < Z.to_nat n)%nat.
Proof.
  intros Hn. unfold Game.randrange. rewrite decide_True by done.
  eexists. split; [done|]. apply Nat.mod_upper_bound. lia.
Qed.

(** What the loop guarantees on a board with positive dimensions. *)
Lemma place_mines_spec (rnd : nat → nat) h w target (fuel : nat) :
  0 < h → 0 < w →
  ∀ (k : nat) m bd,
  board_agrees (Z.to_nat h) (Z.to_nat w) m bd →
  match Game.place_mines fuel rnd k h w target m bd with
  | Returned r =>
      board_agrees (Z.to_nat h) (Z.to_nat w) r.1 r.2
      ∧ Z.of_nat (size r.1) = target
  | Raised => False
  | OutOfFuel => target < 0 ∨ Z.of_nat (size m) ≠ target
  end.
Proof.
  intros Hh Hw. induction fuel as [|fuel IH]; intros k m bd Hagree.
  - simpl. destruct (decide (Z.of_nat (size m) = target)); [done|by right].
  - cbn [Game.place_mines].
    destruct (decide (Z.of_nat (size m) = target)) as [Heq|Hne]; [done|].
    destruct (randrange_positive h (rnd k) Hh) as (i & -> & Hi).
    destruct (randrange_positive w (rnd (S k)) Hw) as (j & -> & Hj).
    destruct (board_agrees_get _ _ _ _ i j Hagree Hi Hj)
      as (row & v & Hrow & Hv & ->).
    destruct v.
    + specialize (IH (S (S k)) m bd Hagree).
      destruct (Game.place_mines fuel rnd (S (S k)) h w target m bd);
        [done|done|by right].
    + pose proof (board_agrees_set _ _ _ _ i j row Hagree Hi Hj Hrow) as H'.
      specialize (IH (S (S k)) _ _ H').
      destruct (Game.place_mines fuel rnd (S (S k)) h w target _ _);
        [done|done|by right].
Qed.

(** With a target that the board cannot hold the loop never exits. *)
Lemma place_mines_diverges (rnd : nat → nat) h w target (fuel : nat) :
  0 < h → 0 < w → target < 0 ∨ h * w < target →
  ∀ (k : nat) m bd,
  board_agrees (Z.to_nat h) (Z.to_nat w) m bd →
  Game.place_mines fuel rnd k h w target m bd = OutOfFuel.
Proof.
  intros Hh Hw Hbad. induction fuel as [|fuel IH]; intros k m bd Hagree;
    pose proof (board_agrees_size _ _ _ _ Hagree) as Hsize;
    cbn [Game.place_mines];
    (rewrite decide_False by nia).
  - done.
  - destruct (randrange_positive h (rnd k) Hh) as (i & -> & Hi).
    destruct (randrange_positive w (rnd (S k)) Hw) as (j & -> & Hj).
    destruct (board_agrees_get _ _ _ _ i j Hagree Hi Hj)
      as (row & v & Hrow & Hv & ->).
    destruct v; [by apply IH|].
    apply IH. by eapply board_agrees_set.
Qed.

Lemma py_get_in_range {A} (l : list A) (i : Z) :
  0 ≤ i → Game.py_get l i = l !! Z.to_nat i.
Proof. intros Hi. unfold Game.py_get. by rewrite decide_True. Qed.

Lemma py_get_wrap {A} (l : list A) (i : Z) :
  - Z.of_nat (length l) ≤ i < 0 →
  Game.py_get l i = Game.py_get l (Z.of_nat (length l) + i).
Proof.
  intros Hi. unfold Game.py_get.
  rewrite decide_False by lia. rewrite decide_True by lia.
  rewrite decide_True by lia. done.
Qed.

Lemma py_get_out_of_range {A} (l : list A) (i : Z) :
  i < - Z.of_nat (length l) ∨ Z.of_nat (length l) ≤ i →
  Game.py_get l i = None.
Proof.
  intros Hi. unfold Game.py_get. destruct (decide (0 ≤ i)).
  - apply lookup_ge_None. lia.
  - rewrite decide_False by lia. done.
Qed.

End game_construction.

Section game_outcomes.
Implicit Types (h w target : Z) (m : gset cell) (bd : list (list bool)).

Lemma place_mines_degenerate (rnd : nat → nat) h w target (fuel k : nat) m bd :
  h ≤ 0 ∨ w ≤ 0 →
  Game.place_mines fuel rnd k h w target m bd
  = if decide (Z.of_nat (size m) = target) then Returned (m, bd)
    else match fuel with O => OutOfFuel | S _ => Raised end.
Proof.
  intros Hdeg. destruct fuel as [|fuel]; cbn [Game.place_mines]; [done|].
  destruct (decide (Z.of_nat (size m) = target)); [done|].
  unfold Game.randrange.
  destruct (decide (0 < h)), (decide (0 < w)); try done; lia.
Qed.

Lemma place_mines_immediate (rnd : nat → nat) h w (fuel k : nat) m bd :
  Game.place_mines fuel rnd k h w (Z.of_nat (size m)) m bd = Returned (m, bd).
Proof. destruct fuel; cbn [Game.place_mines]; by rewrite decide_True. Qed.

Lemma board_agrees_lookup (H W : nat) m bd (i j : nat) :
  board_agrees H W m bd → (i < H)%nat → (j < W)%nat →
  ∃ row, bd !! i = Some row
         ∧ row !! j = Some (bool_decide ((Z.of_nat i, Z.of_nat j) ∈ m)).
Proof.
  intros Hagree Hi Hj.
  destruct (board_agrees_get _ _ _ _ i j Hagree Hi Hj)
    as (row & v & Hrow & Hv & _).
  destruct Hagree as (_ & _ & Hcells & _).
  exists row. split; [done|]. rewrite Hv. f_equal.
  specialize (Hcells i j row Hrow). rewrite Hv in Hcells.
  destruct v.
  - symmetry. apply bool_decide_eq_true. by apply Hcells.
  - symmetry. apply bool_decide_eq_false. intros Hin.
    apply Hcells in Hin. done.
Qed.

Lemma game_init_agrees (rnd : nat → nat) h w target (fuel : nat) (gm : Game) :
  Game.init fuel rnd h w target = Returned gm →
  game_height gm = h ∧ game_width gm = w ∧ game_mines_found gm = ∅
  ∧ Z.of_nat (size (game_mines gm)) = target
  ∧ board_agrees (Z.to_nat h) (Z.to_nat w) (game_mines gm) (game_board gm).
Proof.
  unfold Game.init.
  destruct (decide (0 < h ∧ 0 < w)) as [[Hh Hw]|Hdeg].
  - pose proof (place_mines_spec rnd h w target fuel Hh Hw 0%nat ∅ _
                  (board_agrees_initial h w)) as Hspec.
    destruct (Game.place_mines fuel rnd 0 h w target ∅ _) as [r| |];
      [|done|done].
    intros [= <-]. simpl. tauto.
  - rewrite place_mines_degenerate by lia.
    destruct (decide (Z.of_nat (size (∅ : gset cell)) = target)) as [Heq|];
      [|by destruct fuel].
    intros [= <-]. simpl.
    split; [done|]. split; [done|]. split; [done|]. split; [done|].
    apply board_agrees_initial.
Qed.

End game_outcomes.

(** [X16] When [Minesweeper(height, width, mines)] returns, the game has
    exactly [mines] mines, all of them on the board; the board has
    [height] rows of [width] cells and [board[i][j]] is true exactly for
    the cells in [self.mines]; no mine is found yet, so [won()] holds
    exactly when the game was made with no mine at all. *)
Theorem game_init_postcondition (rnd : nat → nat) (h w target : Z)
  (fuel : nat) (gm : Game) :
  Game.init fuel rnd h w target = Returned gm →
  game_height gm = h ∧ game_width gm = w
  ∧ game_mines_found gm = ∅
  ∧ Z.of_nat (size (game_mines gm)) = target
  ∧ 0 ≤ target ≤ Z.of_nat (Z.to_nat h * Z.to_nat w)
  ∧ length (game_board gm) = Z.to_nat h
  ∧ (∀ row, row ∈ game_board gm → length row = Z.to_nat w)
  ∧ (∀ i j : nat,
       Game.board_get (game_board gm) i j = Some true
       ↔ (Z.of_nat i, Z.of_nat j) ∈ game_mines gm)
  ∧ (∀ c, c ∈ game_mines gm → in_bounds h w c = true)
  ∧ (Game.won gm = true ↔ target = 0).
Proof.
  intros Hinit.
  destruct (game_init_agrees rnd h w target fuel gm Hinit)
    as (Hh & Hw & Hfound & Hsize & Hagree).
  pose proof (board_agrees_size _ _ _ _ Hagree) as Hbound.
  destruct Hagree as (Hlen & Hrows & Hcells & Hin).
  split; [done|]. split; [done|]. split; [done|]. split; [done|].
  split; [lia|]. split; [done|]. split; [|split; [|split]].
  - intros row (i & Hi)%list_elem_of_lookup_1. by eapply Hrows.
  - intros i j. unfold Game.board_get.
    destruct (game_board gm !! i) as [row|] eqn:Hrow; simpl.
    + by apply Hcells.
    + split; [done|]. intros Hc. destruct (Hin _ Hc) as (i' & j' & Heq & Hi' & _).
      apply lookup_ge_None in Hrow. injection Heq. lia.
  - intros c Hc. destruct (Hin c Hc) as (i & j & -> & Hi & Hj).
    unfold in_bounds. apply bool_decide_eq_true. simpl. lia.
  - unfold Game.won. rewrite bool_decide_eq_true, Hfound. split.
    + intros Heq. rewrite <- Heq, size_empty in Hsize. lia.
    + intros Hz. symmetry. apply leibniz_equiv, size_empty_iff. lia.
Qed.

(** [X17] How the constructor ends.  With [mines = 0] it returns at
    once, for any dimensions.  With [mines != 0] and a dimension that is
    not positive, [randrange] raises in the first iteration.  On a board
    with positive dimensions nothing is ever raised, and if [mines] is
    negative or larger than [height * width] the loop never exits,
    whatever the random draws. *)
Theorem game_init_outcomes (rnd : nat → nat) (h w target : Z) (fuel : nat) :
  (target = 0 →
     Game.init fuel rnd h w target
     = Returned (mkGame h w ∅
                   (replicate (Z.to_nat h) (replicate (Z.to_nat w) false)) ∅))
  ∧ (target ≠ 0 → h ≤ 0 ∨ w ≤ 0 →
     Game.init (S fuel) rnd h w target = Raised)
  ∧ (0 < h → 0 < w → Game.init fuel rnd h w target ≠ Raised)
  ∧ (0 < h → 0 < w → target < 0 ∨ h * w < target →
     Game.init fuel rnd h w target = OutOfFuel).
Proof.
  unfold Game.init. split; [|split; [|split]].
  - intros ->.
    pose proof (place_mines_immediate rnd h w fuel 0 ∅ (Game.make_board h w))
      as H.
    rewrite size_empty in H. change (Z.of_nat 0) with 0 in H.
    rewrite H. simpl.
    by rewrite make_board_eq.
  - intros Hne Hdeg. rewrite place_mines_degenerate by done.
    rewrite decide_False; [done|]. rewrite size_empty. simpl. lia.
  - intros Hh Hw.
    pose proof (place_mines_spec rnd h w target fuel Hh Hw 0%nat ∅ _
                  (board_agrees_initial h w)) as Hspec.
    destruct (Game.place_mines fuel rnd 0 h w target ∅ _); done.
  - intros Hh Hw Hbad.
    rewrite (place_mines_diverges rnd h w target fuel Hh Hw Hbad 0%nat ∅ _
               (board_agrees_initial h w)).
    done.
Qed.

(** [X18] [is_mine] on a constructed game with positive dimensions: for a
    cell of the board it tells whether the cell is in [self.mines]; a
    negative row or column index down to [-height] or [-width] is not
    rejected but read from the opposite edge, as Python indexing does; a
    row index outside [-height, height) raises. *)
Theorem is_mine_indexing (rnd : nat → nat) (h w target : Z) (fuel : nat)
  (gm : Game) (c : cell) :
  Game.init fuel rnd h w target = Returned gm → 0 < h → 0 < w →
  (in_bounds h w c = true →
     Game.is_mine gm c = Some (bool_decide (c ∈ game_mines gm)))
  ∧ (- h ≤ c.1 < 0 → Game.is_mine gm c = Game.is_mine gm (c.1 + h, c.2))
  ∧ (0 ≤ c.1 < h → - w ≤ c.2 < 0 →
     Game.is_mine gm c = Game.is_mine gm (c.1, c.2 + w))
  ∧ (c.1 < - h ∨ h ≤ c.1 → Game.is_mine gm c = None).
Proof.
  intros Hinit Hh Hw.
  destruct (game_init_agrees rnd h w target fuel gm Hinit)
    as (_ & _ & _ & _ & Hagree).
  pose proof Hagree as (Hlen & Hrows & _).
  destruct c as [i j]. unfold Game.is_mine. cbn [fst snd].
  split; [|split; [|split]].
  - intros Hb. apply bool_decide_eq_true in Hb. simpl in Hb.
    destruct (board_agrees_lookup _ _ _ _ (Z.to_nat i) (Z.to_nat j) Hagree)
      as (row & Hrow & Hv); [lia|lia|].
    rewrite !py_get_in_range by lia. rewrite Hrow. simpl.
    rewrite py_get_in_range by lia. rewrite Hv.
    by rewrite !Z2Nat.id by lia.
  - intros Hi. rewrite py_get_wrap by lia.
    do 2 f_equal. lia.
  - intros Hi Hj. rewrite py_get_in_range by lia.
    destruct (lookup_lt_is_Some_2 (game_board gm) (Z.to_nat i)) as [row Hrow];
      [lia|].
    rewrite Hrow. simpl. pose proof (Hrows _ _ Hrow) as Hrl.
    rewrite py_get_wrap by lia. f_equal. lia.
  - intros Hout. rewrite py_get_out_of_range by lia. done.
Qed.

Section game_reads.
Implicit Types (h w : Z) (gm : Game) (c : cell).

Lemma is_mine_in_bounds gm c :
  board_agrees (Z.to_nat (game_height gm)) (Z.to_nat (game_width gm))
    (game_mines gm) (game_board gm) →
  in_bounds (game_height gm) (game_width gm) c = true →
  Game.is_mine gm c = Some (bool_decide (c ∈ game_mines gm)).
Proof.
  intros Hagree Hb. destruct c as [i j].
  apply bool_decide_eq_true in Hb. simpl in Hb.
  destruct (board_agrees_lookup _ _ _ _ (Z.to_nat i) (Z.to_nat j) Hagree)
    as (row & Hrow & Hv); [lia|lia|].
  unfold Game.is_mine. cbn [fst snd].
  rewrite !py_get_in_range by lia. rewrite Hrow. simpl.
  rewrite py_get_in_range by lia. rewrite Hv.
  by rewrite !Z2Nat.id by lia.
Qed.

Lemma game_nearby_mines_loop gm c (l : list cell) (n : Z) :
  board_agrees (Z.to_nat (game_height gm)) (Z.to_nat (game_width gm))
    (game_mines gm) (game_board gm) →
  foldl (Game.nearby_mines_step gm c) (Some n) l
  = Some (foldl (Minesweeper.nearby_mines_step (Game.view gm) c) n l).
Proof.
  intros Hagree. revert n. induction l as [|x l IH]; intros n; [done|].
  cbn [foldl]. unfold Game.nearby_mines_step at 2.
  unfold Minesweeper.nearby_mines_step at 2. cbn [mbind option_bind].
  destruct (decide (x = c)); [apply IH|].
  cbn [Game.view Minesweeper.height Minesweeper.width Minesweeper.board].
  destruct (in_bounds (game_height gm) (game_width gm) x) eqn:Hb;
    [|apply IH].
  rewrite (is_mine_in_bounds gm x Hagree Hb). cbn [mbind option_bind].
  apply IH.
Qed.

End game_reads.

(** [X19] On a constructed game [nearby_mines] never raises: every read
    of [board[i][j]] is guarded by the bounds test.  It returns the
    number of cells of [self.mines] among the cells of the board around
    the given cell, the same number as the count computed on the board
    seen as a function. *)
Theorem game_nearby_mines_total (rnd : nat → nat) (h w target : Z)
  (fuel : nat) (gm : Game) (c : cell) :
  Game.init fuel rnd h w target = Returned gm →
  Game.nearby_mines gm c
  = Some (Minesweeper.nearby_mines (Game.view gm) c)
  ∧ Minesweeper.nearby_mines (Game.view gm) c
    = Z.of_nat (size (neighbours h w c ∩ game_mines gm)).
Proof.
  intros Hinit.
  destruct (game_init_agrees rnd h w target fuel gm Hinit)
    as (Hh & Hw & _ & _ & Hagree).
  rewrite <- Hh, <- Hw in Hagree. split.
  - unfold Game.nearby_mines, Minesweeper.nearby_mines.
    by apply game_nearby_mines_loop.
  - rewrite nearby_mines_closed. unfold mines_in.
    cbn [Game.view Minesweeper.height Minesweeper.width Minesweeper.board].
    rewrite Hh, Hw. do 2 f_equal. apply set_eq. intros x.
    rewrite elem_of_filter, elem_of_intersection, bool_decide_eq_true. tauto.
Qed.

(** * Instances of the conditional properties *)

Lemma remove_duplicates_stable_witness :
  NoDup (knowledge (engine_with safe_case_A ∅))
  ∧ MinesweeperAI.remove_duplicates (engine_with safe_case_A ∅)
    = engine_with safe_case_A ∅.
Proof.
  assert (NoDup (knowledge (engine_with safe_case_A ∅))) as H.
  { simpl. apply NoDup_singleton. }
  split; [exact H|].
  exact (proj1 (remove_duplicates_stable (engine_with safe_case_A ∅)) H).
Defined.

Lemma mark_loops_order_independent_witness :
  NoDup [(0,1); (0,0)]
  ∧ list_to_set [(0,1); (0,0)] = cells safe_case_A
  ∧ foldl (λ a c, MinesweeperAI.mark_mine c a)
      (engine_with safe_case_B ∅) [(0,1); (0,0)]
    = MinesweeperAI.mark_mines (cells safe_case_A) (engine_with safe_case_B ∅).
Proof.
  assert (NoDup [(0,1); (0,0) : cell]) as H1.
  { apply (bool_decide_unpack _). vm_compute. exact I. }
  assert (list_to_set [(0,1); (0,0)] = cells safe_case_A) as H2.
  { vm_compute. reflexivity. }
  split; [exact H1|]. split; [exact H2|].
  exact (proj1 (mark_loops_order_independent (cells safe_case_A)
                  [(0,1); (0,0)] (engine_with safe_case_B ∅) H1 H2)).
Defined.

Lemma safe_move_is_safe_witness :
  reachable two_row_game (play two_row_game [(0,0)])
  ∧ (MinesweeperAI.make_safe_move 0 (play two_row_game [(0,0)])).1
    = Some (0,1)
  ∧ Minesweeper.is_mine two_row_game (0,1) = false.
Proof.
  assert (reachable two_row_game (play two_row_game [(0,0)])) as H1.
  { apply play_reachable. apply Forall_cons. split; [|by apply Forall_nil].
    vm_compute. reflexivity. }
  assert ((MinesweeperAI.make_safe_move 0 (play two_row_game [(0,0)])).1
          = Some (0,1)) as H2.
  { vm_compute. reflexivity. }
  split; [exact H1|]. split; [exact H2|].
  exact (proj1 (safe_move_is_safe two_row_game _ 0%nat (0,1) H1 H2)).
Defined.

Lemma reachable_knowledge_is_true_witness :
  reachable row_game (play row_game [(0,1)])
  ∧ height (play row_game [(0,1)]) = Minesweeper.height row_game.
Proof.
  assert (reachable row_game (play row_game [(0,1)])) as H1.
  { apply play_reachable. apply Forall_cons. split; [|by apply Forall_nil].
    vm_compute. reflexivity. }
  split; [exact H1|].
  exact (proj1 (proj2 (proj2 (proj2
           (reachable_knowledge_is_true row_game _ H1))))).
Defined.

Lemma stored_cells_stay_on_board_witness :
  rtc any_call (MinesweeperAI.init 1 5)
      (MinesweeperAI.add_knowledge (0,1) 7 (MinesweeperAI.init 1 5))
  ∧ cells_on_board
      (MinesweeperAI.add_knowledge (0,1) 7 (MinesweeperAI.init 1 5)).
Proof.
  assert (rtc any_call (MinesweeperAI.init 1 5)
            (MinesweeperAI.add_knowledge (0,1) 7 (MinesweeperAI.init 1 5)))
    as H1.
  { apply rtc_once. apply any_add_knowledge. }
  split; [exact H1|].
  exact (proj1 (proj2 (proj2 (stored_cells_stay_on_board 1 5 _ H1)))).
Defined.

Lemma zero_observation_clears_neighbours_witness :
  reachable two_row_game (play two_row_game [])
  ∧ Minesweeper.is_mine two_row_game (0,0) = false
  ∧ Minesweeper.nearby_mines two_row_game (0,0) = 0
  ∧ (0,1) ∈ neighbours (Minesweeper.height two_row_game)
              (Minesweeper.width two_row_game) (0,0)
  ∧ (0,1) ∈ safes (MinesweeperAI.add_knowledge (0,0) 0
                     (play two_row_game [])).
Proof.
  assert (reachable two_row_game (play two_row_game [])) as H1.
  { apply play_reachable. by apply Forall_nil. }
  assert (Minesweeper.is_mine two_row_game (0,0) = false) as H2.
  { vm_compute. reflexivity. }
  assert (Minesweeper.nearby_mines two_row_game (0,0) = 0) as H3.
  { vm_compute. reflexivity. }
  assert ((0,1) ∈ neighbours (Minesweeper.height two_row_game)
                    (Minesweeper.width two_row_game) (0,0)) as H4.
  { apply (bool_decide_unpack _). vm_compute. exact I. }
  split; [exact H1|]. split; [exact H2|]. split; [exact H3|].
  split; [exact H4|].
  exact (zero_observation_clears_neighbours two_row_game _ (0,0)
           H1 H2 H3 (0,1) H4).
Defined.

Lemma full_observation_flags_neighbours_witness :
  reachable pair_game (play pair_game [])
  ∧ Minesweeper.is_mine pair_game (0,0) = false
  ∧ (0,1) ∈ neighbours (Minesweeper.height pair_game)
              (Minesweeper.width pair_game) (0,0)
  ∧ (0,1) ∈ mines (MinesweeperAI.add_knowledge (0,0)
                     (Minesweeper.nearby_mines pair_game (0,0))
                     (play pair_game [])).
Proof.
  assert (reachable pair_game (play pair_game [])) as H1.
  { apply play_reachable. by apply Forall_nil. }
  assert (Minesweeper.is_mine pair_game (0,0) = false) as H2.
  { vm_compute. reflexivity. }
  assert ((0,1) ∈ neighbours (Minesweeper.height pair_game)
                    (Minesweeper.width pair_game) (0,0)) as H4.
  { apply (bool_decide_unpack _). vm_compute. exact I. }
  assert (∀ x, x ∈ neighbours (Minesweeper.height pair_game)
                     (Minesweeper.width pair_game) (0,0) →
               x ∉ safes (play pair_game []) →
               Minesweeper.is_mine pair_game x = true) as H3.
  { intros [i j] Hx _. apply neighbours_spec in Hx.
    destruct Hx as (Hb & Hne & Hi & Hj).
    apply bool_decide_eq_true in Hb. simpl in Hb, Hi, Hj.
    assert (i = 0) as -> by lia.
    assert (j = 1) as ->.
    { destruct (decide (j = 0)) as [->|]; [done|lia]. }
    vm_compute. reflexivity. }
  assert ((0,1) ∉ safes (play pair_game [])) as H5.
  { apply (bool_decide_unpack _). vm_compute. exact I. }
  split; [exact H1|]. split; [exact H2|]. split; [exact H4|].
  exact (full_observation_flags_neighbours pair_game _ (0,0)
           H1 H2 H3 (0,1) H4 H5).
Defined.

Lemma game_init_postcondition_witness :
  Game.init 2 (λ _, 0%nat) 1 2 1 = Returned built_game
  ∧ Z.of_nat (size (game_mines built_game)) = 1.
Proof.
  assert (Game.init 2 (λ _, 0%nat) 1 2 1 = Returned built_game) as H.
  { vm_compute. reflexivity. }
  split; [exact H|].
  exact (proj1 (proj2 (proj2 (proj2
           (game_init_postcondition (λ _, 0%nat) 1 2 1 2 built_game H))))).
Defined.

Lemma is_mine_indexing_witness :
  Game.init 2 (λ _, 0%nat) 1 2 1 = Returned built_game
  ∧ 0 < 1 ∧ 0 < 2 ∧ - 1 ≤ (-1, 0).1 < 0
  ∧ Game.is_mine built_game (-1, 0)
    = Game.is_mine built_game ((-1, 0).1 + 1, (-1, 0).2).
Proof.
  assert (Game.init 2 (λ _, 0%nat) 1 2 1 = Returned built_game) as H.
  { vm_compute. reflexivity. }
  assert (0 < 1) as H1 by lia.
  assert (0 < 2) as H2 by lia.
  assert (- 1 ≤ ((-1, 0) : cell).1 < 0) as H3 by (simpl; lia).
  split; [exact H|]. split; [exact H1|]. split; [exact H2|].
  split; [exact H3|].
  exact (proj1 (proj2 (is_mine_indexing (λ _, 0%nat) 1 2 1 2 built_game
                         (-1, 0) H H1 H2)) H3).
Defined.

Lemma game_nearby_mines_total_witness :
  Game.init 2 (λ _, 0%nat) 1 2 1 = Returned built_game
  ∧ Game.nearby_mines built_game (0,1)
    = Some (Minesweeper.nearby_mines (Game.view built_game) (0,1)).
Proof.
  assert (Game.init 2 (λ _, 0%nat) 1 2 1 = Returned built_game) as H.
  { vm_compute. reflexivity. }
  split; [exact H|].
  exact (proj1 (game_nearby_mines_total (λ _, 0%nat) 1 2 1 2 built_game
                  (0,1) H)).
Defined.

(** ** What the comparison loop and [add_knowledge] add *)

Section additions.
Import MinesweeperAI.
Context (Q : cell → Prop).
Implicit Types (c x : cell) (st : AI) (s : Sentence) (d : gset cell).

Lemma all_cells_stripped (k k' : list Sentence) :
  stripped k k' → all_cells Q k → all_cells Q k'.
Proof.
  intros Hs Hk s' x (i & Hi)%list_elem_of_lookup_1 Hx.
  destruct (Forall2_lookup_r _ _ _ _ _ Hs Hi) as (s & Hs0 & Hsub).
  apply (Hk s x); [by eapply list_elem_of_lookup_2|set_solver].
Qed.

Lemma all_cells_subset_rule small big (acc : AI * list Sentence) :
  (∀ x, x ∈ cells big → Q x) →
  all_cells Q acc.2 → all_cells Q (subset_rule small big acc).2.
Proof.
  intros Hbig Hinf. unfold subset_rule.
  destruct (decide (count small = count big)); simpl; [done|].
  destruct (decide (Z.of_nat (size (cells big ∖ cells small))
                    = count big - count small)); simpl; [done|].
  intros s x [Hs| ->%list_elem_of_singleton]%elem_of_app Hx.
  - by eapply Hinf.
  - simpl in Hx. apply Hbig. set_solver.
Qed.

Lemma all_cells_compare_step (acc : AI * list Sentence) (i : nat) :
  all_cells Q (knowledge acc.1) ∧ all_cells Q acc.2 →
  all_cells Q (knowledge (compare_step acc i).1)
  ∧ all_cells Q (compare_step acc i).2.
Proof.
  intros [Hk Hinf]. split.
  - eapply all_cells_stripped; [|exact Hk].
    apply step_ok_compare_step.
  - unfold compare_step.
    destruct (knowledge acc.1 !! i) as [sentence|] eqn:Hi; [|done].
    destruct (last (knowledge acc.1)) as [new_sentence|] eqn:Hl; [|done].
    destruct (Sentence.eqb sentence new_sentence); [done|].
    destruct (decide (cells sentence ⊆ cells new_sentence)).
    { apply all_cells_subset_rule; [|done]. intros x Hx.
      eapply Hk; [by apply last_Some_elem_of|done]. }
    destruct (decide (cells new_sentence ⊆ cells sentence)); [|done].
    apply all_cells_subset_rule; [|done]. intros x Hx.
    eapply Hk; [by eapply list_elem_of_lookup_2|done].
Qed.

Lemma all_cells_add_knowledge c n st :
  all_cells Q (knowledge (record_observation c n st)) →
  all_cells Q (knowledge (add_knowledge c n st)).
Proof.
  intros H0. unfold add_knowledge.
  assert (all_cells Q (knowledge (compare_all (record_observation c n st)).1)
          ∧ all_cells Q (compare_all (record_observation c n st)).2)
    as [Hk Hinf].
  { unfold compare_all.
    apply (foldl_invariant
             (λ acc, all_cells Q (knowledge acc.1) ∧ all_cells Q acc.2)
             (λ _, True)).
    - intros acc i H _. by apply all_cells_compare_step.
    - by apply Forall_forall.
    - split; [done|]. intros s x ?%elem_of_nil. done. }
  set (st3 := remove_duplicates _).
  assert (all_cells Q (knowledge st3)) as H3.
  { intros s x [Hin|Hin]%remove_duplicates_loop_elem Hx; [set_solver|].
    unfold extend_knowledge, set_knowledge in Hin. cbn [knowledge] in Hin.
    apply elem_of_app in Hin as [Hin|Hin]; [by eapply Hk|by eapply Hinf]. }
  intros s x Hs Hx.
  pose proof (harvest_result_sublist st3) as Hsub.
  destruct (harvest_loop_ok st3 (length (knowledge st3))) as [[_ Hstr] _].
  eapply (all_cells_stripped _ _ Hstr H3); [|exact Hx].
  by eapply elem_of_sublist.
Qed.

End additions.

Section inference_facts.
Import MinesweeperAI.
Implicit Types (c x : cell) (st : AI) (s : Sentence).

Lemma undecided_subset_rule small big (acc : AI * list Sentence) :
  Forall undecided acc.2 →
  Forall undecided (subset_rule small big acc).2
  ∧ (length (subset_rule small big acc).2 ≤ S (length acc.2))%nat.
Proof.
  intros Hinf. unfold subset_rule.
  destruct (decide (count small = count big)); simpl; [split; [done|lia]|].
  destruct (decide (Z.of_nat (size (cells big ∖ cells small))
                    = count big - count small)); simpl; [split; [done|lia]|].
  split.
  - apply Forall_app. split; [done|]. apply Forall_singleton.
    unfold undecided; simpl. split; [lia|done].
  - rewrite length_app. simpl. lia.
Qed.

Lemma undecided_compare_step (acc : AI * list Sentence) (i : nat) :
  Forall undecided acc.2 →
  Forall undecided (compare_step acc i).2
  ∧ (length (compare_step acc i).2 ≤ S (length acc.2))%nat.
Proof.
  intros Hinf. unfold compare_step.
  destruct (knowledge acc.1 !! i) as [sentence|]; [|split; [done|lia]].
  destruct (last (knowledge acc.1)) as [new_sentence|]; [|split; [done|lia]].
  destruct (Sentence.eqb sentence new_sentence); [split; [done|lia]|].
  destruct (decide (cells sentence ⊆ cells new_sentence));
    [by apply undecided_subset_rule|].
  destruct (decide (cells new_sentence ⊆ cells sentence));
    [by apply undecided_subset_rule|split; [done|lia]].
Qed.

Lemma undecided_compare_loop st (n : nat) :
  Forall undecided (foldl compare_step (st, []) (seq 0 n)).2
  ∧ (length (foldl compare_step (st, []) (seq 0 n)).2 ≤ n)%nat.
Proof.
  induction n as [|n [IH1 IH2]]; [by split|].
  rewrite seq_S, foldl_snoc. cbn [Nat.add].
  destruct (undecided_compare_step
              (foldl compare_step (st, []) (seq 0 n)) n IH1) as [H1 H2].
  split; [done|lia].
Qed.

End inference_facts.

(** [X20] The comparison loop of [add_knowledge] neither adds nor removes a
    stored sentence: it only removes cells from them.  It records at most
    one inference per stored sentence, and every inference it records has
    a count that is neither 0 nor the number of its cells, so none of them
    is decided when it is recorded. *)
Theorem comparison_loop_effect (st : AI) :
  stripped (knowledge st) (knowledge (MinesweeperAI.compare_all st).1)
  ∧ length (knowledge (MinesweeperAI.compare_all st).1)
    = length (knowledge st)
  ∧ same_frame st (MinesweeperAI.compare_all st).1
  ∧ (length (MinesweeperAI.compare_all st).2 ≤ length (knowledge st))%nat
  ∧ Forall undecided (MinesweeperAI.compare_all st).2.
Proof.
  destruct (step_ok_compare_all st) as [Hf Hs].
  destruct (undecided_compare_loop st (length (knowledge st))) as [H1 H2].
  split; [done|]. split; [symmetry; by eapply Forall2_length|].
  split; [done|]. split; [exact H2|exact H1].
Qed.

(** [X21] One call of [add_knowledge] at most doubles the knowledge list
    after adding the new sentence: the list that held [n] sentences
    holds at most [2 * (n + 1)] afterwards. *)
Theorem add_knowledge_growth (c : cell) (n : Z) (st : AI) :
  (length (knowledge (MinesweeperAI.add_knowledge c n st))
   ≤ 2 * (length (knowledge st) + 1))%nat.
Proof.
  unfold MinesweeperAI.add_knowledge.
  set (st1 := MinesweeperAI.record_observation c n st).
  assert (length (knowledge st1) = S (length (knowledge st))) as Hlen1.
  { unfold st1, MinesweeperAI.record_observation, set_knowledge.
    cbn [knowledge MinesweeperAI.mark_safe].
    rewrite length_app, length_fmap. simpl. lia. }
  destruct (step_ok_compare_all st1) as [_ Hs].
  apply Forall2_length in Hs.
  destruct (undecided_compare_loop st1 (length (knowledge st1))) as [_ H2].
  fold (MinesweeperAI.compare_all st1) in H2.
  set (st3 := MinesweeperAI.remove_duplicates _).
  assert (length (knowledge st3) ≤ 2 * (length (knowledge st) + 1))%nat
    as H3.
  { etrans; [apply sublist_length; apply (remove_duplicates_loop_sublist _ [])|].
    unfold MinesweeperAI.extend_knowledge, set_knowledge. cbn [knowledge].
    simpl. rewrite length_app. lia. }
  pose proof (harvest_result_sublist st3) as Hsub.
  apply sublist_length in Hsub.
  destruct (harvest_loop_ok st3 (length (knowledge st3))) as [[_ Hstr] _].
  apply Forall2_length in Hstr. lia.
Qed.

(** [X22] After [add_knowledge(c, n)] the observed cell occurs in no
    stored sentence, and every cell that occurs in a stored sentence
    occurred in one before the call or lies on the board around [c]: the
    call never brings any other cell into the knowledge. *)
Theorem add_knowledge_cells (c : cell) (n : Z) (st : AI) :
  (∀ s, s ∈ knowledge (MinesweeperAI.add_knowledge c n st) → c ∉ cells s)
  ∧ (∀ s x, s ∈ knowledge (MinesweeperAI.add_knowledge c n st) →
            x ∈ cells s →
            (∃ s0, s0 ∈ knowledge st ∧ x ∈ cells s0)
            ∨ x ∈ neighbours (height st) (width st) c).
Proof.
  split.
  - intros s Hs Hc.
    apply (all_cells_add_knowledge (λ x, x ≠ c) c n st) with (s := s) (x := c);
      [|done|done|done].
    intros s' x. unfold MinesweeperAI.record_observation, set_knowledge.
    cbn [knowledge MinesweeperAI.mark_safe].
    intros [Hin| ->%list_elem_of_singleton]%elem_of_app Hx.
    + apply list_elem_of_fmap in Hin as (s0 & -> & _).
      rewrite mark_safe_cells in Hx. set_solver.
    + rewrite new_sentence_of_closed in Hx. cbn [cells] in Hx.
      apply elem_of_difference in Hx as [Hx _].
      apply neighbours_spec in Hx. tauto.
  - intros s x Hs Hx.
    apply (all_cells_add_knowledge
             (λ x, (∃ s0, s0 ∈ knowledge st ∧ x ∈ cells s0)
                   ∨ x ∈ neighbours (height st) (width st) c) c n st)
      with (s := s); [|done|done].
    intros s' y. unfold MinesweeperAI.record_observation, set_knowledge.
    cbn [knowledge MinesweeperAI.mark_safe].
    intros [Hin| ->%list_elem_of_singleton]%elem_of_app Hy.
    + apply list_elem_of_fmap in Hin as (s0 & -> & Hin).
      rewrite mark_safe_cells in Hy. left. exists s0. set_solver.
    + rewrite new_sentence_of_closed in Hy. cbn [cells height width] in Hy.
      right. set_solver.
Qed.
